(** * Authorization decision pipeline of the policy sidecar (package [server])

    A shallow embedding of [server/match.go] (the rule matchers) and of the
    [Check] handler, together with the properties stated about them.

    Conventions of the embedding.
    - A Go [string] is a sequence of bytes: [string] of the Standard Library.
    - A Go pointer that the code tests against [nil] is an [option].
    - A Go [map[string]string] is a [gmap string string]; a nil map reads as
      the empty map.
    - The package keeps one mutable variable, [spiffeIdRegExp], and writes to
      the process-wide logger.  Both are threaded explicitly through every
      function, in the monad [M] below; a run-time panic (nil dereference,
      index out of range) is an outcome of its own. *)

From Stdlib Require Import Ascii String.
From stdpp Require Import base strings gmap list.

Local Open Scope string_scope.
Local Open Scope list_scope.

(** ** The fragment of Go's [regexp] package that the code relies on *)

Module regexp.

(** Compiled form.  Only what [SPIFFE_ID_PATTERN] is written with is
    supported: the assertions [^] and [$], literal bytes, and the repetition
    [[^c]+] of a negated one-byte class, bare or as a capture group
    [([^c]+)]. *)
Inductive inst : Type :=
| BeginText
| EndText
| Lit (c : ascii)
| NotCharPlus (c : ascii) (capture : bool).

Definition Regexp : Type := list inst.

Definition is_meta (a : ascii) : bool :=
  existsb (Ascii.eqb a)
    ["\"; "."; "+"; "*"; "?"; "("; ")"; "|"; "["; "]"; "{"; "}"; "^"; "$"]%char.

(** [regexp.Compile]: [None] stands for the pair (nil, error). *)
Fixpoint Compile (expr : string) : option Regexp :=
  match expr with
  | "" => Some []
  | String a r =>
      if Ascii.eqb a "^" then cons BeginText <$> Compile r
      else if Ascii.eqb a "$" then cons EndText <$> Compile r
      else if Ascii.eqb a "[" then
        match r with
        | String x (String c (String y (String z r'))) =>
            if Ascii.eqb x "^" && negb (is_meta c)
               && Ascii.eqb y "]" && Ascii.eqb z "+"
            then cons (NotCharPlus c false) <$> Compile r'
            else None
        | _ => None
        end
      else if Ascii.eqb a "(" then
        match r with
        | String o (String x (String c (String y (String z (String p r'))))) =>
            if Ascii.eqb o "[" && Ascii.eqb x "^" && negb (is_meta c)
               && Ascii.eqb y "]" && Ascii.eqb z "+" && Ascii.eqb p ")"
            then cons (NotCharPlus c true) <$> Compile r'
            else None
        | _ => None
        end
      else if is_meta a then None
      else cons (Lit a) <$> Compile r
  end.

(** The outcome of a match attempt at one position: the text matched and
    the texts of the capture groups, in order. *)
Definition attempt : Type := option (string * list string).

Definition consumed (pre : string) (grp : option string) (r : attempt) : attempt :=
  match r with
  | Some (m, caps) =>
      Some (pre +:+ m, match grp with Some g => g :: caps | None => caps end)
  | None => None
  end.

(** Greedy [[^c]+]: take bytes other than [c] as long as possible, and give
    bytes back one at a time while the rest of the program fails.  [acc] is
    what this repetition has taken so far. *)
Fixpoint plus_loop (c : ascii) (cap : bool) (k : string -> attempt)
    (acc : string) (s : string) : attempt :=
  let stop :=
    match acc with
    | "" => None
    | _ => consumed acc (if cap then Some acc else None) (k s)
    end in
  match s with
  | "" => stop
  | String a s' =>
      if Ascii.eqb a c then stop
      else match plus_loop c cap k (acc +:+ String a "") s' with
           | Some r => Some r
           | None => stop
           end
  end.

(** Match the program at the current position; [at_start] says whether the
    position is the beginning of the text. *)
Fixpoint match_here (prog : Regexp) (at_start : bool) : string -> attempt :=
  match prog with
  | [] => fun _ => Some ("", [])
  | BeginText :: rest =>
      fun s => if at_start then match_here rest at_start s else None
  | EndText :: rest =>
      fun s => match s with
               | "" => match_here rest at_start s
               | String _ _ => None
               end
  | Lit c :: rest =>
      fun s => match s with
               | "" => None
               | String a s' =>
                   if Ascii.eqb a c
                   then consumed (String a "") None (match_here rest false s')
                   else None
               end
  | NotCharPlus c cap :: rest =>
      plus_loop c cap (match_here rest false) ""
  end.

Fixpoint search (prog : Regexp) (at_start : bool) (s : string)
    : option (list string) :=
  match match_here prog at_start s with
  | Some (m, caps) => Some (m :: caps)
  | None =>
      match s with
      | "" => None
      | String _ s' => search prog false s'
      end
  end.

(** [Regexp.FindStringSubmatch]: the leftmost match and its groups, or
    [None] for the nil slice. *)
Definition FindStringSubmatch (re : Regexp) (s : string) : option (list string) :=
  search re true s.

End regexp.

(** ** Package state, logging and panics *)

Inductive Level : Type := DebugLevel | InfoLevel | WarnLevel | ErrorLevel.

(** One call to the logger.  The message is the literal (format) string of
    the call; the formatted arguments and the structured fields are left
    out. *)
Record entry : Type := Entry { level : Level; message : string }.

Record world : Type := World {
  spiffeIdRegExp : option regexp.Regexp;   (* nil until first use *)
  journal : list entry;                    (* oldest first *)
}.

Definition init_world : world := World None [].

Inductive outcome (A : Type) : Type :=
| Ret (a : A)
| Panic (why : string).
Arguments Ret {A} a.
Arguments Panic {A} why.

Definition M (A : Type) : Type := world -> outcome (A * world).

Definition ret {A} (a : A) : M A := fun w => Ret (a, w).

Definition bind {A B} (m : M A) (k : A -> M B) : M B :=
  fun w => match m w with
           | Ret (a, w') => k a w'
           | Panic why => Panic why
           end.

Definition panic {A} (why : string) : M A := fun _ => Panic why.

Notation "x <- m ;; k" := (bind m (fun x => k))
  (at level 100, m at next level, right associativity).
Notation "m ;; k" := (bind m (fun _ => k))
  (at level 100, right associativity).

Definition log (lvl : Level) (msg : string) : M unit :=
  fun w => Ret (tt, World (spiffeIdRegExp w) (journal w ++ [Entry lvl msg])).

Definition get_spiffeIdRegExp : M (option regexp.Regexp) :=
  fun w => Ret (spiffeIdRegExp w, w).

Definition set_spiffeIdRegExp (re : option regexp.Regexp) : M unit :=
  fun w => Ret (tt, World re (journal w)).

(** The value a computation returns from [w], if it returns. *)
Definition value {A} (m : M A) (w : world) : option A :=
  match m w with Ret (a, _) => Some a | Panic _ => None end.

(** The world a computation leaves behind, if it returns. *)
Definition after {A} (m : M A) (w : world) : option world :=
  match m w with Ret (_, w') => Some w' | Panic _ => None end.

(** A Go [error] value: its message. *)
Definition error : Type := string.

Definition index {A} (s : list A) (i : nat) : M A :=
  match s !! i with
  | Some x => ret x
  | None => panic "index out of range"
  end.

(** ** Data model *)

(** The policy types of [libcalico-go/lib/apis/v3], restricted to the fields
    the matchers read. *)
Module api.

Record ServiceAccountMatch : Type := {
  Names : list string;
  Selector : string;
}.

Record EntityRule : Type := {
  ServiceAccounts : option ServiceAccountMatch;
}.

Record HTTPRule : Type := {
  Methods : list string;
}.

Record Rule : Type := {
  Source : EntityRule;
  HTTP : option HTTPRule;
}.

End api.

(** The status of [google.golang.org/genproto/googleapis/rpc]. *)
Module rpc.

Record Status : Type := {
  Code : Z;          (* int32 *)
  Message : string;
}.

(** [code.Code_value]: the name to number table of the [Code] enum. *)
Definition Code_value : gmap string Z :=
  list_to_map
    [("OK", 0); ("CANCELLED", 1); ("UNKNOWN", 2); ("INVALID_ARGUMENT", 3);
     ("DEADLINE_EXCEEDED", 4); ("NOT_FOUND", 5); ("ALREADY_EXISTS", 6);
     ("PERMISSION_DENIED", 7); ("UNAUTHENTICATED", 16);
     ("RESOURCE_EXHAUSTED", 8); ("FAILED_PRECONDITION", 9); ("ABORTED", 10);
     ("OUT_OF_RANGE", 11); ("UNIMPLEMENTED", 12); ("INTERNAL", 13);
     ("UNAVAILABLE", 14); ("DATA_LOSS", 15)]%Z.

(** Reading a Go map: the zero value when the key is missing. *)
Definition Code_value_at (name : string) : Z := default 0%Z (Code_value !! name).

End rpc.

(** The request and response messages of the proxy's authorization API.  A
    message is received by pointer; the generated getters accept a nil
    receiver and answer the zero value. *)
Module authz.

Record AttributeContext_Peer : Type := {
  Principal : string;
  Labels : gmap string string;
}.

Record AttributeContext_HTTPRequest : Type := {
  Method : string;
}.

Record AttributeContext_Request : Type := {
  Http : option AttributeContext_HTTPRequest;
}.

Record AttributeContext : Type := {
  Source : option AttributeContext_Peer;
  Request : option AttributeContext_Request;
}.

Record CheckRequest : Type := {
  Attributes : option AttributeContext;
}.

Record CheckResponse : Type := {
  Status : option rpc.Status;
}.

Definition GetAttributes (m : option CheckRequest) : option AttributeContext :=
  match m with Some x => Attributes x | None => None end.

Definition GetSource (m : option AttributeContext) : option AttributeContext_Peer :=
  match m with Some x => Source x | None => None end.

Definition GetRequest (m : option AttributeContext) : option AttributeContext_Request :=
  match m with Some x => Request x | None => None end.

Definition GetPrincipal (m : option AttributeContext_Peer) : string :=
  match m with Some x => Principal x | None => "" end.

Definition GetLabels (m : option AttributeContext_Peer) : gmap string string :=
  match m with Some x => Labels x | None => ∅ end.

Definition GetHttp (m : option AttributeContext_Request)
    : option AttributeContext_HTTPRequest :=
  match m with Some x => Http x | None => None end.

Definition GetMethod (m : option AttributeContext_HTTPRequest) : string :=
  match m with Some x => Method x | None => "" end.

End authz.

(** ** Collaborators *)

(** The label selector library ([libcalico-go/lib/selector]): a parser of
    selector expressions and the evaluation of a parsed selector on a label
    map.  It is outside this repository and is taken as given. *)
Class SelectorLib : Type := {
  Selector : Type;
  selector_Parse : string -> Selector + error;
  selector_Evaluate : Selector -> gmap string string -> bool;
}.

(** ** The matchers ([server/match.go]) *)

Definition SPIFFE_ID_PATTERN : string := "^spiffe://[^/]+/ns/([^/]+)/sa/([^/]+)$".

(** Parse an Istio SPIFFE ID and extract the service account name and
    namespace.  The result is Go's triple (name, namespace, err). *)
Definition parseSpiffeId (id : string) : M (string * string * option error) :=
  cur <- get_spiffeIdRegExp ;;
  (match cur with
   | None => set_spiffeIdRegExp (regexp.Compile SPIFFE_ID_PATTERN)
   | Some _ => ret tt
   end) ;;
  cur <- get_spiffeIdRegExp ;;
  match cur with
  | None => panic "nil pointer dereference"
  | Some re =>
      match regexp.FindStringSubmatch re id with
      | None =>
          ret ("", "", Some ("expected match " +:+ SPIFFE_ID_PATTERN
                             +:+ ", got " +:+ id))
      | Some m =>
          name <- index m 2 ;;
          namespace <- index m 1 ;;
          ret (name, namespace, None)
      end
  end.

(** The [for ... range names] loop: [Some b] when the body returns [b]. *)
Fixpoint range_names (names : list string) (name : string) : option bool :=
  match names with
  | [] => None
  | name2 :: rest =>
      if String.eqb name2 name then Some true else range_names rest name
  end.

Definition matchServiceAccountName (names : list string) (name : string) : M bool :=
  log DebugLevel "Matching service account name" ;;
  if Nat.eqb (length names) 0 then
    log DebugLevel "No service account names on rule." ;;
    ret true
  else
    match range_names names name with
    | Some b => ret b
    | None => ret false
    end.

(** The [for ... range methods] loop of [matchHTTPMethods]. *)
Fixpoint range_methods (methods : list string) (reqMethod : string)
    : M (option bool) :=
  match methods with
  | [] => ret None
  | method :: rest =>
      if String.eqb method "*" then
        log DebugLevel "Rule matches all methods with wildcard *" ;;
        ret (Some true)
      else if String.eqb method reqMethod then
        log DebugLevel "HTTP Method matched." ;;
        ret (Some true)
      else range_methods rest reqMethod
  end.

Definition matchHTTPMethods (methods : list string) (reqMethod : string) : M bool :=
  log DebugLevel "Matching HTTP Methods" ;;
  if Nat.eqb (length methods) 0 then
    log DebugLevel "Rule has 0 HTTP Methods, matched." ;;
    ret true
  else
    r <- range_methods methods reqMethod ;;
    match r with
    | Some b => ret b
    | None =>
        log DebugLevel "HTTP Method not matched." ;;
        ret false
    end.

Definition matchHTTP (rule : option api.HTTPRule)
    (req : option authz.AttributeContext_HTTPRequest) : M bool :=
  log DebugLevel "Matching HTTP." ;;
  match rule with
  | None =>
      log DebugLevel "nil HTTPRule.  Return true" ;;
      ret true
  | Some rule => matchHTTPMethods (api.Methods rule) (authz.GetMethod req)
  end.

Definition matchRequest (rule : api.Rule)
    (req : option authz.AttributeContext_Request) : M bool :=
  log DebugLevel "Matching request." ;;
  matchHTTP (api.HTTP rule) (authz.GetHttp req).

Section Matchers.

Context `{SelectorLib}.

Definition matchServiceAccountLabels (selectorStr : string)
    (labels : gmap string string) : M bool :=
  log DebugLevel "Matching service account labels." ;;
  match selector_Parse selectorStr with
  | inr err =>
      log WarnLevel "Could not parse policy selector %v, %v" ;;
      ret false
  | inl sel =>
      log DebugLevel "Parsed selector." ;;
      ret (selector_Evaluate sel labels)
  end.

Definition matchServiceAccounts (saMatch : option api.ServiceAccountMatch)
    (peer : option authz.AttributeContext_Peer) : M bool :=
  let principle := authz.GetPrincipal peer in
  let labels := authz.GetLabels peer in
  log DebugLevel "Matching service account." ;;
  r <- parseSpiffeId principle ;;
  let '(accountName, namespace, err) := r in
  match err with
  | Some _ =>
      log WarnLevel "Unable to parse authenticated principle as SPIFFE ID." ;;
      ret false
  | None =>
      log DebugLevel "Parsed SPIFFE ID." ;;
      match saMatch with
      | None =>
          log DebugLevel "nil ServiceAccountMatch.  Return true." ;;
          ret true
      | Some saMatch =>
          (* Go's && evaluates its right operand only when the left is true *)
          b <- matchServiceAccountName (api.Names saMatch) accountName ;;
          if b then matchServiceAccountLabels (api.Selector saMatch) labels
          else ret false
      end
  end.

Definition matchPeer (er : api.EntityRule)
    (peer : option authz.AttributeContext_Peer) : M bool :=
  matchServiceAccounts (api.ServiceAccounts er) peer.

(** [match] checks if the Rule matches the request.  It returns true if the
    Rule matches, false otherwise. *)
Definition match_ (rule : api.Rule) (req : option authz.CheckRequest) : M bool :=
  log DebugLevel "Checking rule %v on request %v" ;;
  let attr := authz.GetAttributes req in
  b <- matchPeer (api.Source rule) (authz.GetSource attr) ;;
  if b then matchRequest rule (authz.GetRequest attr) else ret false.

End Matchers.

(** ** The decision handler *)

(** What [Check] uses from the other files of package [server]: how the
    container identifier is read from the call's context, and the combiner
    that turns the policies and the request into a status.  Neither is
    constrained here. *)
Class HandlerDeps : Type := {
  context_Context : Type;
  Policy : Type;
  getContainerFromContext : context_Context -> string * option error;
  checkPolicies : list Policy -> option authz.CheckRequest -> M rpc.Status;
}.

Section Handler.

Context `{HandlerDeps}.

(** The interface [CalicoQuery]; each method answers Go's tuple. *)
Record CalicoQuery : Type := {
  GetEndpointFromContainer : string -> string -> string * string * option error;
  GetPolicies : string -> string -> list Policy * option error;
}.

Record auth_server : Type := {
  NodeName : string;
  Query : CalicoQuery;
}.

Definition Check (as_ : auth_server) (ctx : context_Context)
    (req : option authz.CheckRequest)
    : M (option authz.CheckResponse * option error) :=
  log DebugLevel "Check(%v, %v)" ;;
  let resp :=
    {| authz.Status :=
         Some {| rpc.Code := rpc.Code_value_at "INTERNAL"; rpc.Message := "" |} |} in
  let '(cid, err) := getContainerFromContext ctx in
  match err with
  | Some _ =>
      log ErrorLevel "Failed to get container ID. %v" ;;
      ret (Some resp, None)
  | None =>
      let '(name, namespace, err) :=
        GetEndpointFromContainer (Query as_) cid (NodeName as_) in
      (match err with
       | Some _ => log ErrorLevel "Failed to get endpoint for container %v. %v"
       | None => ret tt
       end) ;;
      let '(policies, err) := GetPolicies (Query as_) name namespace in
      match err with
      | Some _ =>
          log ErrorLevel "Failed to get policies. %v" ;;
          ret (Some resp, None)
      | None =>
          st <- checkPolicies policies req ;;
          let resp := {| authz.Status := Some st |} in
          log InfoLevel "Check complete" ;;
          ret (Some resp, None)
      end
  end.

End Handler.

Arguments CalicoQuery {_}.
Arguments auth_server {_}.

(** ** Vocabulary of the statements *)

(** The package variable is either still nil or holds the compiled
    [SPIFFE_ID_PATTERN]: the only two values the code ever gives it. *)
Definition wf_regexp (re : option regexp.Regexp) : Prop :=
  re = None \/ re = regexp.Compile SPIFFE_ID_PATTERN.

Definition wf_world (w : world) : Prop := wf_regexp (spiffeIdRegExp w).

(** [m] returns [a] from every world whose package variable satisfies [P],
    keeps [P], and only appends to the journal. *)
Definition yields {A} (P : option regexp.Regexp -> Prop) (m : M A) (a : A) : Prop :=
  forall w, P (spiffeIdRegExp w) ->
    exists w', m w = Ret (a, w') /\ P (spiffeIdRegExp w')
               /\ exists j, journal w' = journal w ++ j.

(** The compiled form of [SPIFFE_ID_PATTERN]. *)
Definition spiffe_prog : regexp.Regexp :=
  (regexp.BeginText
   :: map regexp.Lit ["s"; "p"; "i"; "f"; "f"; "e"; ":"; "/"; "/"]
   ++ regexp.NotCharPlus "/" false :: map regexp.Lit ["/"; "n"; "s"; "/"]
   ++ regexp.NotCharPlus "/" true :: map regexp.Lit ["/"; "s"; "a"; "/"]
   ++ [regexp.NotCharPlus "/" true; regexp.EndText])%char.

(** A continuation that cannot start on a byte other than [c]: what follows
    [[^c]+] in the patterns of interest (the literal [c], or the end of the
    text). *)
Definition stops_at (c : ascii) (k : string -> regexp.attempt) : Prop :=
  forall a s, a <> c -> k (String a s) = None.

(** Whether a principal is accepted by [parseSpiffeId]. *)
Definition parses (id : string) : bool :=
  match value (parseSpiffeId id) init_world with
  | Some (_, _, None) => true
  | _ => false
  end.

Fixpoint free_of (c : ascii) (s : string) : bool :=
  match s with
  | "" => true
  | String a s' => negb (Ascii.eqb a c) && free_of c s'
  end.

(** One path segment: not empty and without a slash. *)
Definition segment (s : string) : Prop := s <> "" /\ free_of "/" s = true.

(** [id] is spiffe://<domain>/ns/<namespace>/sa/<name>. *)
Definition spiffe_shape (id name namespace : string) : Prop :=
  exists domain,
    id = "spiffe://" +:+ domain +:+ "/ns/" +:+ namespace +:+ "/sa/" +:+ name
    /\ segment domain /\ segment namespace /\ segment name.

(** The error of [parseSpiffeId]: it quotes the pattern and the string. *)
Definition MalformedIdentity (id : string) : error :=
  "expected match " +:+ SPIFFE_ID_PATTERN +:+ ", got " +:+ id.

Definition INTERNAL : rpc.Status := {| rpc.Code := 13; rpc.Message := "" |}.

(** ** Sample collaborators, used to run the code on concrete inputs *)

(** A selector library with three forms: the empty expression and [all()]
    select everything, [k == 'v'] selects the maps that give [v] to [k]. *)
Inductive sample_selector : Type :=
| SelAll
| SelEq (k v : string).

Definition sample_Parse (expr : string) : sample_selector + error :=
  if String.eqb expr "" || String.eqb expr "all()" then inl SelAll
  else
    match String.index 0 " == '" expr with
    | Some i =>
        let k := String.substring 0 i expr in
        let n := String.length expr in
        if String.eqb (String.substring (n - 1) 1 expr) "'" && Nat.ltb 0 i
        then inl (SelEq k (String.substring (i + 5) (n - 1 - (i + 5)) expr))
        else inr ("unexpected token in " +:+ expr)
    | None => inr ("unexpected token in " +:+ expr)
    end.

Definition sample_Evaluate (sel : sample_selector) (labels : gmap string string) : bool :=
  match sel with
  | SelAll => true
  | SelEq k v =>
      match labels !! k with
      | Some v' => String.eqb v' v
      | None => false
      end
  end.

#[local] Instance sample_selectors : SelectorLib := {|
  Selector := sample_selector;
  selector_Parse := sample_Parse;
  selector_Evaluate := sample_Evaluate;
|}.

(** A combiner that allows when some rule of some policy matches; a policy
    is the list of its rules, and the context carries the container
    identifier when there is one. *)
Fixpoint sample_any (rules : list api.Rule) (req : option authz.CheckRequest) : M bool :=
  match rules with
  | [] => ret false
  | r :: rest =>
      b <- match_ r req ;;
      if b then ret true else sample_any rest req
  end.

Definition sample_checkPolicies (policies : list (list api.Rule))
    (req : option authz.CheckRequest) : M rpc.Status :=
  b <- sample_any (concat policies) req ;;
  ret {| rpc.Code := rpc.Code_value_at (if b then "OK" else "PERMISSION_DENIED");
         rpc.Message := "" |}.

#[local] Instance sample_deps : HandlerDeps := {|
  context_Context := option string;
  Policy := list api.Rule;
  getContainerFromContext := fun ctx =>
    match ctx with
    | Some cid => (cid, None)
    | None => ("", Some "no container in context")
    end;
  checkPolicies := sample_checkPolicies;
|}.

(** A provider whose datastore is unreachable: both calls fail. *)
Definition sample_down : CalicoQuery := {|
  GetEndpointFromContainer := fun _ _ => ("", "", Some "connection refused");
  GetPolicies := fun _ _ => ([], Some "connection refused");
|}.

(** A provider that knows one workload, [web] in [prod], guarded by one
    policy with one rule: account [bar], label [role] equal to [web], methods
    GET and POST. *)
Definition sample_rule : api.Rule := {|
  api.Source := {| api.ServiceAccounts :=
    Some {| api.Names := ["bar"]; api.Selector := "role == 'web'" |} |};
  api.HTTP := Some {| api.Methods := ["GET"; "POST"] |};
|}.

Definition sample_up : CalicoQuery := {|
  GetEndpointFromContainer := fun cid _ =>
    if String.eqb cid "c1" then ("web", "prod", None)
    else ("", "", Some "no such container");
  GetPolicies := fun name namespace =>
    if String.eqb name "web" && String.eqb namespace "prod"
    then ([[sample_rule]], None) else ([], None);
|}.

Definition sample_request (principal : string) (labels : gmap string string)
    (method : string) : option authz.CheckRequest :=
  Some {| authz.Attributes := Some {|
    authz.Source := Some {| authz.Principal := principal; authz.Labels := labels |};
    authz.Request := Some {| authz.Http := Some {| authz.Method := method |} |} |} |}.

(** ** Building the server ([NewServer], [NewKubeClient]) *)

(** The configuration types of [libcalico-go/lib/apiconfig], restricted to
    the Kubernetes part.  In Go the spec embeds the KubeConfig struct under
    its type name; the field is called [SpecKubeConfig] here, and likewise
    [SpecDatastoreType]. *)
Module apiconfig.

Inductive DatastoreType : Type := EtcdV3 | Kubernetes.

Record KubeConfig : Type := {
  Kubeconfig : string;
  K8sAPIEndpoint : string;
  K8sKeyFile : string;
  K8sCertFile : string;
  K8sCAFile : string;
  K8sAPIToken : string;
  K8sInsecureSkipTLSVerify : bool;
}.

Record CalicoAPIConfigSpec : Type := {
  SpecDatastoreType : DatastoreType;
  SpecKubeConfig : KubeConfig;
  AlphaFeatures : string;
}.

Record CalicoAPIConfig : Type := {
  Spec : CalicoAPIConfigSpec;
}.

End apiconfig.

(** The parts of [k8s.io/client-go/tools/clientcmd] that [NewKubeClient]
    fills in. *)
Module clientcmd.

Record AuthInfo : Type := {
  ClientCertificate : string;
  ClientKey : string;
  Token : string;
}.

Record ClusterInfo : Type := {
  Server : string;
  CertificateAuthority : string;
  InsecureSkipTLSVerify : bool;
}.

Record ConfigOverrides : Type := {
  OverridesAuthInfo : AuthInfo;
  OverridesClusterInfo : ClusterInfo;
}.

Record ClientConfigLoadingRules : Type := {
  ExplicitPath : string;
}.

(** The zero values of the two structs. *)
Definition no_overrides : ConfigOverrides :=
  {| OverridesAuthInfo := {| ClientCertificate := ""; ClientKey := ""; Token := "" |};
     OverridesClusterInfo :=
       {| Server := ""; CertificateAuthority := ""; InsecureSkipTLSVerify := false |} |}.

Definition no_rules : ClientConfigLoadingRules := {| ExplicitPath := "" |}.

(** A pointer to one of the string fields of a [ConfigOverrides]. *)
Inductive field : Type :=
| ClusterInfo_Server
| AuthInfo_ClientCertificate
| AuthInfo_ClientKey
| ClusterInfo_CertificateAuthority
| AuthInfo_Token.

(** Assignment through such a pointer. *)
Definition store (p : field) (v : string) (o : ConfigOverrides) : ConfigOverrides :=
  let a := OverridesAuthInfo o in
  let c := OverridesClusterInfo o in
  match p with
  | ClusterInfo_Server =>
      {| OverridesAuthInfo := a;
         OverridesClusterInfo :=
           {| Server := v; CertificateAuthority := CertificateAuthority c;
              InsecureSkipTLSVerify := InsecureSkipTLSVerify c |} |}
  | ClusterInfo_CertificateAuthority =>
      {| OverridesAuthInfo := a;
         OverridesClusterInfo :=
           {| Server := Server c; CertificateAuthority := v;
              InsecureSkipTLSVerify := InsecureSkipTLSVerify c |} |}
  | AuthInfo_ClientCertificate =>
      {| OverridesAuthInfo :=
           {| ClientCertificate := v; ClientKey := ClientKey a; Token := Token a |};
         OverridesClusterInfo := c |}
  | AuthInfo_ClientKey =>
      {| OverridesAuthInfo :=
           {| ClientCertificate := ClientCertificate a; ClientKey := v;
              Token := Token a |};
         OverridesClusterInfo := c |}
  | AuthInfo_Token =>
      {| OverridesAuthInfo :=
           {| ClientCertificate := ClientCertificate a; ClientKey := ClientKey a;
              Token := v |};
         OverridesClusterInfo := c |}
  end.

Definition set_InsecureSkipTLSVerify (b : bool) (o : ConfigOverrides)
    : ConfigOverrides :=
  {| OverridesAuthInfo := OverridesAuthInfo o;
     OverridesClusterInfo :=
       {| Server := Server (OverridesClusterInfo o);
          CertificateAuthority := CertificateAuthority (OverridesClusterInfo o);
          InsecureSkipTLSVerify := b |} |}.

End clientcmd.

(** What the two constructors call outside this file: the loading of a
    client configuration, the construction of the Kubernetes clientset, the
    translation of Kubernetes errors, the Calico client, and the constructor
    of the query object (another file of package [server]). *)
Class KubeDeps `{HandlerDeps} : Type := {
  rest_Config : Type;
  Clientset : Type;
  CalicoClient : Type;
  clientcmd_ClientConfig :
    clientcmd.ClientConfigLoadingRules -> clientcmd.ConfigOverrides
    -> rest_Config + error;
  kubernetes_NewForConfig : rest_Config -> Clientset + error;
  K8sErrorToCalico : error -> error;
  clientv3_New : apiconfig.CalicoAPIConfig -> CalicoClient + error;
  NewCalicoQuery : CalicoClient -> option Clientset -> CalicoQuery;
}.

(** The [for ... range overridesMap] loop: populate any non-empty values. *)
Fixpoint range_overridesMap (overridesMap : list (clientcmd.field * string))
    (configOverrides : clientcmd.ConfigOverrides) : clientcmd.ConfigOverrides :=
  match overridesMap with
  | [] => configOverrides
  | (variable, value) :: rest =>
      range_overridesMap rest
        (if negb (String.eqb value "")
         then clientcmd.store variable value configOverrides
         else configOverrides)
  end.

Section Constructors.

Context `{KubeDeps}.

(** Modified from libcalico-go/lib/backend/k8s/k8s.go to return bare
    clientset. *)
Definition NewKubeClient (calCfg : apiconfig.CalicoAPIConfig)
    : M (option Clientset * option error) :=
  let kc := apiconfig.SpecKubeConfig (apiconfig.Spec calCfg) in
  log DebugLevel "Building client for config: %+v" ;;
  let configOverrides := clientcmd.no_overrides in
  let overridesMap :=
    [(clientcmd.ClusterInfo_Server, apiconfig.K8sAPIEndpoint kc);
     (clientcmd.AuthInfo_ClientCertificate, apiconfig.K8sCertFile kc);
     (clientcmd.AuthInfo_ClientKey, apiconfig.K8sKeyFile kc);
     (clientcmd.ClusterInfo_CertificateAuthority, apiconfig.K8sCAFile kc);
     (clientcmd.AuthInfo_Token, apiconfig.K8sAPIToken kc)] in
  let loadingRules := clientcmd.no_rules in
  let loadingRules :=
    if negb (String.eqb (apiconfig.Kubeconfig kc) "")
    then {| clientcmd.ExplicitPath := apiconfig.Kubeconfig kc |}
    else loadingRules in
  let configOverrides := range_overridesMap overridesMap configOverrides in
  let configOverrides :=
    if apiconfig.K8sInsecureSkipTLSVerify kc
    then clientcmd.set_InsecureSkipTLSVerify true configOverrides
    else configOverrides in
  log DebugLevel "Config overrides: %+v" ;;
  match clientcmd_ClientConfig loadingRules configOverrides with
  | inr err => ret (None, Some (K8sErrorToCalico err))
  | inl config =>
      match kubernetes_NewForConfig config with
      | inr err => ret (None, Some (K8sErrorToCalico err))
      | inl cs =>
          log DebugLevel "Created k8s clientSet: %+v" ;;
          ret (Some cs, None)
      end
  end.

Definition NewServer (config : apiconfig.CalicoAPIConfig) (nodeName : string)
    : M (option auth_server * option error) :=
  let r := clientv3_New config in
  log DebugLevel "Created Calico Client." ;;
  match r with
  | inr err => ret (None, Some err)
  | inl c =>
      (* Temporary hack for direct access to K8s API. *)
      r <- NewKubeClient config ;;
      let '(clientset, err) := r in
      match err with
      | Some err => ret (None, Some err)
      | None =>
          let q := NewCalicoQuery c clientset in
          ret (Some {| NodeName := nodeName; Query := q |}, None)
      end
  end.

End Constructors.

(** ** The command line program (package [main]) *)

Module main.

(** A value of type interface{} as the argument parser produces them. *)
Inductive iface : Type :=
| Nil
| Str (s : string)
| Bool (b : bool)
| Int (n : Z)
| Strs (l : list string).

(** What the program does to the outside, in order: a call to the logger, a
    request sent over a connection, a connection closed. *)
Inductive event {Conn : Type} : Type :=
| Logged (e : entry)
| Sent (conn : Conn) (req : authz.CheckRequest)
| Closed (conn : Conn).
Arguments event Conn : clear implicits.

(** How a function of the program ends: it returns, it panics, or it logs at
    fatal level, which ends the process with status 1 without running the
    deferred calls. *)
Inductive ending (A : Type) : Type :=
| Returns (a : A)
| Panics (why : string)
| Fatal (msg : string).
Arguments Returns {A} a.
Arguments Panics {A} why.
Arguments Fatal {A} msg.

(** The host and the network, as the program sees them. *)
Class Host : Type := {
  Conn : Type;
  ReadFile : string -> string + error;
  grpc_Dial : string -> Conn + error;
  client_Check : Conn -> authz.CheckRequest -> authz.CheckResponse + error;
}.

Section Program.

Context `{Host}.

Definition Proc (A : Type) : Type := list (event Conn) -> ending A * list (event Conn).

Definition returns {A} (a : A) : Proc A := fun t => (Returns a, t).

Definition then_ {A B} (m : Proc A) (k : A -> Proc B) : Proc B :=
  fun t => match m t with
           | (Returns a, t') => k a t'
           | (Panics why, t') => (Panics why, t')
           | (Fatal msg, t') => (Fatal msg, t')
           end.

Definition emit (e : event Conn) : Proc unit := fun t => (Returns tt, t ++ [e]).

Definition logf (lvl : Level) (msg : string) : Proc unit := emit (Logged (Entry lvl msg)).

Definition fatalf {A} (msg : string) : Proc A := fun t => (Fatal msg, t).

(** A deferred call runs when the function returns and when it panics, not
    when the process exits. *)
Definition defer {A} (deferred : Proc unit) (body : Proc A) : Proc A :=
  fun t => match body t with
           | (Returns a, t') =>
               match deferred t' with
               | (Returns _, t'') => (Returns a, t'')
               | (Panics why, t'') => (Panics why, t'')
               | (Fatal msg, t'') => (Fatal msg, t'')
               end
           | (Panics why, t') =>
               match deferred t' with
               | (Fatal msg, t'') => (Fatal msg, t'')
               | (_, t'') => (Panics why, t'')
               end
           | (Fatal msg, t') => (Fatal msg, t')
           end.

(** Reading a map: the nil interface when the key is missing. *)
Definition at_ (arguments : gmap string iface) (key : string) : iface :=
  default Nil (arguments !! key).

(** The type assertions x.(string) and x.(bool). *)
Definition assert_string (x : iface) : Proc string :=
  match x with
  | Str s => returns s
  | _ => fun t => (Panics "interface conversion: interface {} is not string", t)
  end.

Definition assert_bool (x : iface) : Proc bool :=
  match x with
  | Bool b => returns b
  | _ => fun t => (Panics "interface conversion: interface {} is not bool", t)
  end.

Definition getConfig (arguments : gmap string iface)
    : Proc apiconfig.CalicoAPIConfig :=
  let kube (kc : apiconfig.KubeConfig) :=
    {| apiconfig.Spec :=
         {| apiconfig.SpecDatastoreType := apiconfig.Kubernetes;
            apiconfig.SpecKubeConfig := kc;
            apiconfig.AlphaFeatures := "serviceaccounts,httprules" |} |} in
  match at_ arguments "--kube" with
  | Nil =>
      then_ (assert_string (at_ arguments "--token")) (fun path =>
      match ReadFile path with
      | inr err => fatalf "Could not open token file %v. %v"
      | inl token =>
          then_ (assert_string (at_ arguments "--kubernetes")) (fun endpoint =>
          then_ (assert_string (at_ arguments "--ca")) (fun ca =>
          returns
            (kube {| apiconfig.Kubeconfig := "";
                     apiconfig.K8sAPIEndpoint := endpoint;
                     apiconfig.K8sKeyFile := "";
                     apiconfig.K8sCertFile := "";
                     apiconfig.K8sCAFile := ca;
                     apiconfig.K8sAPIToken := token;
                     apiconfig.K8sInsecureSkipTLSVerify := false |})))
      end)
  | x =>
      then_ (assert_string x) (fun path =>
      returns
        (kube {| apiconfig.Kubeconfig := path;
                 apiconfig.K8sAPIEndpoint := "";
                 apiconfig.K8sKeyFile := "";
                 apiconfig.K8sCertFile := "";
                 apiconfig.K8sCAFile := "";
                 apiconfig.K8sAPIToken := "";
                 apiconfig.K8sInsecureSkipTLSVerify := false |}))
  end.

(** The dial options (no transport security, a dialer for unix sockets) and
    the background context are part of [grpc_Dial] and [client_Check]. *)
Definition runClient (arguments : gmap string iface) : Proc unit :=
  then_ (assert_string (at_ arguments "--dial")) (fun target =>
  match grpc_Dial target with
  | inr err => fatalf "fail to dial: %v"
  | inl conn =>
      defer (emit (Closed conn))
        (then_ (assert_string (at_ arguments "<namespace>")) (fun namespace =>
         then_ (assert_string (at_ arguments "<account>")) (fun account =>
         let source :=
           {| authz.Principal :=
                "spiffe://cluster.local/ns/" +:+ namespace +:+ "/sa/" +:+ account;
              authz.Labels := ∅ |} in
         let req :=
           {| authz.Attributes :=
                Some {| authz.Source := Some source; authz.Request := None |} |} in
         then_ (assert_bool (at_ arguments "--method")) (fun withMethod =>
         then_ (if withMethod
                then then_ (assert_string (at_ arguments "<method>")) (fun method =>
                     returns
                       {| authz.Attributes :=
                            Some {| authz.Source := Some source;
                                    authz.Request :=
                                      Some {| authz.Http :=
                                                Some {| authz.Method := method |} |} |} |})
                else returns req) (fun req =>
         then_ (emit (Sent conn req)) (fun _ =>
         match client_Check conn req with
         | inr err => fatalf "Failed %v"
         | inl resp =>
             logf InfoLevel ("Check response:" +:+ String "010" " %v")
         end))))))
  end).

End Program.

End main.

(** Sample surroundings for the constructors and the program.  The client
    configuration is the pair of what it was loaded from, and loading fails
    when neither a path nor a server is given; the clientset is the server it
    talks to. *)
#[local] Instance sample_kube : KubeDeps := {|
  rest_Config := clientcmd.ClientConfigLoadingRules * clientcmd.ConfigOverrides;
  Clientset := string;
  CalicoClient := unit;
  clientcmd_ClientConfig := fun rules o =>
    if String.eqb (clientcmd.ExplicitPath rules) ""
       && String.eqb (clientcmd.Server (clientcmd.OverridesClusterInfo o)) ""
    then inr "no configuration has been provided"
    else inl (rules, o);
  kubernetes_NewForConfig := fun c =>
    inl (clientcmd.Server (clientcmd.OverridesClusterInfo (snd c)));
  K8sErrorToCalico := fun e => "connection failed: " +:+ e;
  clientv3_New := fun cfg =>
    match apiconfig.SpecDatastoreType (apiconfig.Spec cfg) with
    | apiconfig.Kubernetes => inl tt
    | apiconfig.EtcdV3 => inr "unsupported datastore"
    end;
  NewCalicoQuery := fun _ _ => sample_up;
|}.

(** A host with one token file, whose network reaches the sample server. *)
#[local] Instance sample_host : main.Host := {|
  main.Conn := string;
  main.ReadFile := fun path =>
    if String.eqb path "/run/token" then inl "s3cret" else inr "no such file";
  main.grpc_Dial := fun target =>
    if String.eqb target "" then inr "empty target" else inl target;
  main.client_Check := fun _ req =>
    match value (Check {| NodeName := "node1"; Query := sample_up |} (Some "c1")
                   (Some req)) init_world with
    | Some (Some resp, None) => inl resp
    | _ => inr "rpc error"
    end;
|}.

Definition sample_arguments : gmap string main.iface :=
  list_to_map
    [("--dial", main.Str "/var/run/dikastes/dikastes.sock");
     ("<namespace>", main.Str "foo"); ("<account>", main.Str "bar");
     ("--method", main.Bool true); ("<method>", main.Str "GET");
     ("--token", main.Str "/run/token");
     ("--kubernetes", main.Str "https://kubernetes:443");
     ("--ca", main.Str "/run/ca.crt")].

(** A provider that does not know the container but hands out a policy
    with one rule, which has no constraint at all. *)
Definition sample_allow_all : api.Rule := {|
  api.Source := {| api.ServiceAccounts := None |};
  api.HTTP := None;
|}.

Definition sample_unresolved : CalicoQuery := {|
  GetEndpointFromContainer := fun _ _ => ("", "", Some "no such container");
  GetPolicies := fun _ _ => ([[sample_allow_all]], None);
|}.

(** ** Strings *)

#[local] Arguments String.append !_ _ / : simpl nomatch.

Lemma append_nil_r (s : string) : s +:+ "" = s.
Proof. induction s as [|a s IH]; simpl; [reflexivity | now rewrite IH]. Qed.

Lemma append_assoc (s t u : string) : (s +:+ t) +:+ u = s +:+ (t +:+ u).
Proof. induction s as [|a s IH]; simpl; [reflexivity | now rewrite IH]. Qed.

Lemma append_eq_nil (s t : string) : s +:+ t = "" -> s = "" /\ t = "".
Proof. destruct s; simpl; [auto | discriminate]. Qed.

Lemma free_of_cons (c a : ascii) (s : string) :
  free_of c (String a s) = true <-> a <> c /\ free_of c s = true.
Proof.
  simpl. rewrite andb_true_iff, negb_true_iff, Ascii.eqb_neq. reflexivity.
Qed.

(** Every string splits into its longest prefix without [c] and a rest that
    is empty or starts with [c]. *)
Lemma span_exists (c : ascii) (s : string) :
  exists t rest, s = t +:+ rest /\ free_of c t = true
                 /\ (rest = "" \/ exists r, rest = String c r).
Proof.
  induction s as [|a s (t & rest & -> & Ht & Hrest)].
  - exists "", "". auto.
  - destruct (Ascii.eqb_spec a c) as [->|Hne].
    + exists "", (String c (t +:+ rest)). eauto.
    + exists (String a t), rest. repeat split; [|assumption].
      apply free_of_cons; auto.
Qed.

(** The split is unique. *)
Lemma span_unique (c : ascii) (t1 t2 r1 r2 : string) :
  free_of c t1 = true -> free_of c t2 = true ->
  (r1 = "" \/ exists r, r1 = String c r) ->
  (r2 = "" \/ exists r, r2 = String c r) ->
  t1 +:+ r1 = t2 +:+ r2 -> t1 = t2 /\ r1 = r2.
Proof.
  revert t2. induction t1 as [|a t1 IH]; intros [|b t2] H1 H2 Hr1 Hr2 E; simpl in E.
  - auto.
  - apply free_of_cons in H2 as [Hb _].
    destruct Hr1 as [->|[r ->]]; [discriminate | congruence].
  - apply free_of_cons in H1 as [Ha _].
    destruct Hr2 as [->|[r ->]]; [discriminate | congruence].
  - apply free_of_cons in H1 as [_ H1]. apply free_of_cons in H2 as [_ H2].
    injection E as -> E. destruct (IH _ H1 H2 Hr1 Hr2 E) as [-> ->]. auto.
Qed.

(** ** The matcher on the patterns of interest *)

Module regexp_facts.
Import regexp.

Lemma consumed_some pre grp r m caps :
  consumed pre grp r = Some (m, caps) ->
  exists m' caps', r = Some (m', caps') /\ m = pre +:+ m'
    /\ caps = match grp with Some g => g :: caps' | None => caps' end.
Proof.
  destruct r as [[m' caps']|]; simpl; [|discriminate].
  intros [= <- <-]. eauto.
Qed.

Lemma match_here_Begin rest s :
  match_here (BeginText :: rest) true s = match_here rest true s.
Proof. reflexivity. Qed.

Lemma match_here_Lit c rest b s :
  match_here (Lit c :: rest) b (String c s)
  = consumed (String c "") None (match_here rest false s).
Proof. simpl. now rewrite Ascii.eqb_refl. Qed.

Lemma match_here_Lit_ne c rest b a s :
  a <> c -> match_here (Lit c :: rest) b (String a s) = None.
Proof. intros Hne. simpl. apply Ascii.eqb_neq in Hne. now rewrite Hne. Qed.

Lemma match_here_Lit_inv c rest b s m caps :
  match_here (Lit c :: rest) b s = Some (m, caps) ->
  exists s' m', s = String c s' /\ m = String c m'
    /\ match_here rest false s' = Some (m', caps).
Proof.
  destruct s as [|a s]; simpl; [discriminate|].
  destruct (Ascii.eqb_spec a c) as [->|]; [|discriminate].
  intros (m' & caps' & E & -> & ->)%consumed_some. eauto.
Qed.

Lemma match_here_Plus c cap rest b s :
  match_here (NotCharPlus c cap :: rest) b s
  = plus_loop c cap (match_here rest false) "" s.
Proof. reflexivity. Qed.

Lemma match_here_End_nil b : match_here [EndText] b "" = Some ("", []).
Proof. reflexivity. Qed.

Lemma match_here_End_inv b s m caps :
  match_here [EndText] b s = Some (m, caps) -> s = "" /\ caps = [].
Proof. destruct s; simpl; [intros [= _ <-]; auto | discriminate]. Qed.

Lemma stops_at_Lit c rest : stops_at c (match_here (Lit c :: rest) false).
Proof. intros a s Hne. now apply match_here_Lit_ne. Qed.

Lemma stops_at_End c : stops_at c (match_here [EndText] false).
Proof. intros a s _. reflexivity. Qed.

(** Before such a continuation the repetition takes exactly the longest
    prefix without [c]. *)
Lemma plus_loop_run c cap k acc t rest :
  stops_at c k ->
  free_of c t = true ->
  (rest = "" \/ exists r, rest = String c r) ->
  plus_loop c cap k acc (t +:+ rest)
  = match acc +:+ t with
    | "" => None
    | _ => consumed (acc +:+ t) (if cap then Some (acc +:+ t) else None) (k rest)
    end.
Proof.
  intros Hk. revert acc. induction t as [|a t IH]; intros acc Ht Hrest.
  - rewrite append_nil_r. simpl.
    destruct Hrest as [->|[r ->]]; simpl; [|rewrite Ascii.eqb_refl]; reflexivity.
  - apply free_of_cons in Ht as [Hne Ht]. simpl.
    apply Ascii.eqb_neq in Hne as Hne'. rewrite Hne'.
    rewrite (IH _ Ht Hrest), append_assoc. simpl.
    destruct (acc +:+ String a t) eqn:E.
    { apply append_eq_nil in E as [_ E]. discriminate. }
    rewrite <- E. destruct (k rest) as [[m caps]|]; simpl; [reflexivity|].
    rewrite (Hk _ _ Hne). now destruct acc.
Qed.

Lemma plus_loop_inv c cap k s m caps :
  stops_at c k ->
  plus_loop c cap k "" s = Some (m, caps) ->
  exists t rest m' caps',
    s = t +:+ rest /\ t <> "" /\ free_of c t = true
    /\ k rest = Some (m', caps')
    /\ caps = if cap then t :: caps' else caps'.
Proof.
  intros Hk. destruct (span_exists c s) as (t & rest & -> & Ht & Hrest).
  rewrite (plus_loop_run _ _ _ _ _ _ Hk Ht Hrest). simpl.
  destruct t as [|a t]; [discriminate|].
  intros (m' & caps' & E & -> & ->)%consumed_some.
  exists (String a t), rest, m', caps'. repeat split; auto.
  now destruct cap.
Qed.

(** An anchored program matches at the beginning of the text or nowhere. *)
Lemma search_anchored rest s :
  search (BeginText :: rest) true s
  = match match_here rest true s with
    | Some (m, caps) => Some (m :: caps)
    | None => None
    end.
Proof.
  assert (Hno : forall u, search (BeginText :: rest) false u = None).
  { induction u as [|a u IH]; simpl; [reflexivity | exact IH]. }
  destruct s as [|a s]; simpl.
  - reflexivity.
  - destruct (match_here rest true (String a s)) as [[m caps]|];
      [reflexivity | apply Hno].
Qed.

End regexp_facts.

(** ** Reasoning about computations in [M] *)

Section Yields.

Context (P : option regexp.Regexp -> Prop).

Lemma yields_ret {A} (a : A) : yields P (ret a) a.
Proof.
  intros w Hw. exists w. repeat split; [assumption|].
  exists []. now rewrite app_nil_r.
Qed.

Lemma yields_log lvl msg : yields P (log lvl msg) tt.
Proof. intros w Hw. eexists. repeat split; [exact Hw | eexists; reflexivity]. Qed.

Lemma yields_bind {A B} (m : M A) (k : A -> M B) a b :
  yields P m a -> yields P (k a) b -> yields P (bind m k) b.
Proof.
  intros Hm Hk w Hw.
  destruct (Hm w Hw) as (w1 & E1 & H1 & j1 & J1).
  destruct (Hk w1 H1) as (w2 & E2 & H2 & j2 & J2).
  exists w2. unfold bind. rewrite E1. repeat split; [assumption.. |].
  exists (j1 ++ j2). now rewrite J2, J1, app_assoc.
Qed.

Lemma yields_value {A} (m : M A) a w :
  yields P m a -> P (spiffeIdRegExp w) -> value m w = Some a.
Proof.
  intros Hm Hw. destruct (Hm w Hw) as (w' & E & _). unfold value. now rewrite E.
Qed.

Lemma yields_after {A} (m : M A) a w :
  yields P m a -> P (spiffeIdRegExp w) ->
  exists w' j, after m w = Some w' /\ P (spiffeIdRegExp w')
               /\ journal w' = journal w ++ j.
Proof.
  intros Hm Hw. destruct (Hm w Hw) as (w' & E & Hw' & j & J).
  exists w', j. unfold after. now rewrite E.
Qed.

End Yields.

Create HintDb yields.
#[local] Hint Resolve yields_ret yields_log : yields.

Ltac yields_step :=
  first [ apply yields_ret | apply yields_log
        | eapply yields_bind; [solve [eauto with yields] |] ].

(** ** The identity parser *)

Section IdentityParser.
Import regexp regexp_facts.

Lemma Compile_SPIFFE_ID_PATTERN : Compile SPIFFE_ID_PATTERN = Some spiffe_prog.
Proof. vm_compute. reflexivity. Qed.

Ltac strip_literals E :=
  repeat match type of E with
  | match_here (Lit _ :: _) _ _ = Some _ =>
      apply match_here_Lit_inv in E as (? & ? & -> & -> & E)
  end.

Lemma slash_rest (s : string) :
  String "/" s = "" \/ exists r, String "/" s = String "/" r.
Proof. right. eauto. Qed.

Lemma spiffe_match_of_shape id name namespace :
  spiffe_shape id name namespace ->
  FindStringSubmatch spiffe_prog id = Some [id; namespace; name].
Proof.
  intros (domain & -> & [Hd Fd] & [Hn Fn] & [Ha Fa]).
  unfold FindStringSubmatch, spiffe_prog. cbn [map app].
  rewrite search_anchored. cbn [String.append].
  rewrite !match_here_Lit, match_here_Plus.
  rewrite (plus_loop_run _ _ _ _ _ _ (stops_at_Lit _ _) Fd (slash_rest _)).
  rewrite !match_here_Lit, match_here_Plus.
  rewrite (plus_loop_run _ _ _ _ _ _ (stops_at_Lit _ _) Fn (slash_rest _)).
  rewrite !match_here_Lit, match_here_Plus.
  pose proof (plus_loop_run "/" true _ "" name "" (stops_at_End _) Fa
                (or_introl eq_refl)) as Hlast.
  rewrite append_nil_r in Hlast. rewrite Hlast, match_here_End_nil.
  destruct domain; [congruence|]. destruct namespace; [congruence|].
  destruct name; [congruence|].
  simpl. rewrite append_nil_r. reflexivity.
Qed.

Lemma spiffe_shape_of_match id l :
  FindStringSubmatch spiffe_prog id = Some l ->
  exists name namespace, l = [id; namespace; name] /\ spiffe_shape id name namespace.
Proof.
  intros Hl.
  assert (exists name namespace, spiffe_shape id name namespace)
    as (name & namespace & Hshape).
  { revert Hl. unfold FindStringSubmatch, spiffe_prog. cbn [map app].
    rewrite search_anchored.
    destruct (match_here _ true id) as [[m caps]|] eqn:E; [|discriminate].
    intros _.
    strip_literals E.
    rewrite match_here_Plus in E.
    apply plus_loop_inv in E as (domain & ? & ? & ? & -> & Hd & Fd & E & _);
      [|apply stops_at_Lit].
    strip_literals E.
    rewrite match_here_Plus in E.
    apply plus_loop_inv in E as (namespace & ? & ? & ? & -> & Hn & Fn & E & _);
      [|apply stops_at_Lit].
    strip_literals E.
    rewrite match_here_Plus in E.
    apply plus_loop_inv in E as (name & ? & ? & ? & -> & Ha & Fa & E & _);
      [|apply stops_at_End].
    apply match_here_End_inv in E as [-> _].
    rewrite append_nil_r.
    exists name, namespace, domain. repeat split; assumption. }
  exists name, namespace. split; [|exact Hshape].
  rewrite (spiffe_match_of_shape _ _ _ Hshape) in Hl. congruence.
Qed.

(** What [parseSpiffeId] answers and what it leaves behind, from any world
    the package can be in. *)
Lemma parseSpiffeId_run id w :
  wf_world w ->
  exists r,
    parseSpiffeId id w
    = Ret (r, World (Compile SPIFFE_ID_PATTERN) (journal w))
    /\ match r with
       | (name, namespace, None) => spiffe_shape id name namespace
       | (name, namespace, Some err) =>
           name = "" /\ namespace = "" /\ err = MalformedIdentity id
           /\ forall n ns, ~ spiffe_shape id n ns
       end.
Proof.
  intros Hw. unfold wf_world, wf_regexp in Hw.
  assert (Hstep : parseSpiffeId id w
            = match FindStringSubmatch spiffe_prog id with
              | None => ret ("", "", Some (MalformedIdentity id))
              | Some m =>
                  name <- index m 2 ;;
                  namespace <- index m 1 ;;
                  ret (name, namespace, None)
              end (World (Compile SPIFFE_ID_PATTERN) (journal w))).
  { unfold parseSpiffeId, bind, get_spiffeIdRegExp, set_spiffeIdRegExp, ret.
    destruct w as [re j]. destruct Hw as [Hre|Hre]; simpl in Hre; subst re;
      cbn [spiffeIdRegExp journal]; rewrite Compile_SPIFFE_ID_PATTERN;
      reflexivity. }
  rewrite Hstep. clear Hstep.
  destruct (FindStringSubmatch spiffe_prog id) as [l|] eqn:E.
  - apply spiffe_shape_of_match in E as (name & namespace & -> & Hshape).
    exists (name, namespace, None). split; [reflexivity | exact Hshape].
  - exists ("", "", Some (MalformedIdentity id)). split; [reflexivity|].
    repeat split. intros n ns Hshape.
    apply spiffe_match_of_shape in Hshape. congruence.
Qed.

Lemma wf_world_init : wf_world init_world.
Proof. left. reflexivity. Qed.

Lemma wf_world_compiled j : wf_world (World (Compile SPIFFE_ID_PATTERN) j).
Proof. right. reflexivity. Qed.

(** The answer does not depend on the world. *)
Lemma parseSpiffeId_value id w :
  wf_world w -> value (parseSpiffeId id) w = value (parseSpiffeId id) init_world.
Proof.
  intros Hw.
  destruct (parseSpiffeId_run id w Hw) as ([[n1 s1] e1] & E1 & H1).
  destruct (parseSpiffeId_run id _ wf_world_init) as ([[n2 s2] e2] & E2 & H2).
  unfold value. rewrite E1, E2. f_equal.
  destruct e1 as [e1|], e2 as [e2|].
  - destruct H1 as (-> & -> & -> & _), H2 as (-> & -> & -> & _). reflexivity.
  - destruct H1 as (_ & _ & _ & H1). destruct (H1 _ _ H2).
  - destruct H2 as (_ & _ & _ & H2). destruct (H2 _ _ H1).
  - apply spiffe_match_of_shape in H1, H2. congruence.
Qed.

Lemma parses_shape id :
  parses id = true <-> exists name namespace, spiffe_shape id name namespace.
Proof.
  unfold parses, value.
  destruct (parseSpiffeId_run id _ wf_world_init) as ([[n s] e] & -> & Hr).
  destruct e as [e|]; split.
  - discriminate.
  - intros (n' & s' & Hs). destruct Hr as (_ & _ & _ & Hr). destruct (Hr _ _ Hs).
  - eauto.
  - reflexivity.
Qed.


Lemma yields_parseSpiffeId id :
  exists r,
    yields wf_regexp (parseSpiffeId id) r
    /\ value (parseSpiffeId id) init_world = Some r
    /\ match r with
       | (name, namespace, None) => spiffe_shape id name namespace
       | (name, namespace, Some err) =>
           name = "" /\ namespace = "" /\ err = MalformedIdentity id
           /\ forall n ns, ~ spiffe_shape id n ns
       end.
Proof.
  destruct (parseSpiffeId_run id _ wf_world_init) as (r & E & Hr).
  assert (V : value (parseSpiffeId id) init_world = Some r).
  { unfold value. now rewrite E. }
  exists r. repeat split; [|assumption..].
  intros w Hw.
  destruct (parseSpiffeId_run id w Hw) as (r' & E' & _).
  pose proof (parseSpiffeId_value id w Hw) as V'.
  rewrite V in V'. unfold value in V'. rewrite E' in V'. injection V' as ->.
  eexists. split; [exact E'|]. split; [apply wf_world_compiled|].
  exists []. simpl. now rewrite app_nil_r.
Qed.

End IdentityParser.

(** ** The matchers *)

Lemma range_names_In names name :
  In name names -> range_names names name = Some true.
Proof.
  induction names as [|n names IH]; simpl; [tauto|].
  destruct (String.eqb_spec n name) as [|Hne]; [reflexivity|].
  intros [?|Hin]; [contradiction | auto].
Qed.

Lemma range_names_not_In names name :
  ~ In name names -> range_names names name = None.
Proof.
  induction names as [|n names IH]; simpl; [reflexivity|].
  destruct (String.eqb_spec n name) as [->|Hne]; intros Hnin.
  - destruct Hnin. now left.
  - apply IH. tauto.
Qed.

(** Whether some entry of [methods] is the wildcard or is [reqMethod]. *)
Lemma existsb_method methods reqMethod :
  existsb (fun m => String.eqb m "*" || String.eqb m reqMethod) methods = true
  <-> In "*" methods \/ In reqMethod methods.
Proof.
  rewrite existsb_exists. split.
  - intros (m & Hin & [E|E]%orb_true_iff); apply String.eqb_eq in E; subst; auto.
  - intros [Hin|Hin]; eexists; (split; [exact Hin|]).
    + reflexivity.
    + rewrite (String.eqb_refl reqMethod). apply orb_true_r.
Qed.

Section MatcherFacts.

Context `{SelectorLib} (P : option regexp.Regexp -> Prop).

Lemma yields_matchServiceAccountName names name :
  yields P (matchServiceAccountName names name)
    (if Nat.eqb (length names) 0 then true
     else default false (range_names names name)).
Proof.
  unfold matchServiceAccountName. yields_step.
  destruct (Nat.eqb (length names) 0).
  - repeat yields_step.
  - destruct (range_names names name); apply yields_ret.
Qed.

Lemma yields_range_methods methods reqMethod :
  yields P (range_methods methods reqMethod)
    (if existsb (fun m => String.eqb m "*" || String.eqb m reqMethod) methods
     then Some true else None).
Proof.
  induction methods as [|m methods IH]; simpl.
  - apply yields_ret.
  - destruct (String.eqb m "*"); simpl; [repeat yields_step|].
    destruct (String.eqb m reqMethod); simpl; [repeat yields_step | exact IH].
Qed.

Lemma yields_matchHTTPMethods methods reqMethod :
  yields P (matchHTTPMethods methods reqMethod)
    (if Nat.eqb (length methods) 0 then true
     else existsb (fun m => String.eqb m "*" || String.eqb m reqMethod) methods).
Proof.
  unfold matchHTTPMethods. yields_step.
  destruct (Nat.eqb (length methods) 0); [repeat yields_step|].
  eapply yields_bind; [apply yields_range_methods|].
  destruct (existsb _ methods); repeat yields_step.
Qed.

Lemma yields_matchHTTP rule req :
  yields P (matchHTTP rule req)
    match rule with
    | None => true
    | Some rule =>
        if Nat.eqb (length (api.Methods rule)) 0 then true
        else existsb (fun m => String.eqb m "*"
                               || String.eqb m (authz.GetMethod req))
               (api.Methods rule)
    end.
Proof.
  unfold matchHTTP. yields_step.
  destruct rule; [apply yields_matchHTTPMethods | repeat yields_step].
Qed.

Lemma yields_matchRequest rule req :
  exists b, yields P (matchRequest rule req) b
            /\ yields P (matchHTTP (api.HTTP rule) (authz.GetHttp req)) b.
Proof.
  eexists. split; [|apply yields_matchHTTP].
  unfold matchRequest. yields_step. apply yields_matchHTTP.
Qed.

Lemma yields_matchServiceAccountLabels selectorStr labels :
  yields P (matchServiceAccountLabels selectorStr labels)
    match selector_Parse selectorStr with
    | inl sel => selector_Evaluate sel labels
    | inr _ => false
    end.
Proof.
  unfold matchServiceAccountLabels. yields_step.
  destruct (selector_Parse selectorStr); repeat yields_step.
Qed.

End MatcherFacts.

Section RuleFacts.

Context `{SelectorLib}.

Lemma yields_matchServiceAccounts saMatch peer :
  yields wf_regexp (matchServiceAccounts saMatch peer)
    match value (parseSpiffeId (authz.GetPrincipal peer)) init_world with
    | Some (accountName, _, None) =>
        match saMatch with
        | None => true
        | Some saMatch =>
            (if Nat.eqb (length (api.Names saMatch)) 0 then true
             else default false (range_names (api.Names saMatch) accountName))
            && match selector_Parse (api.Selector saMatch) with
               | inl sel => selector_Evaluate sel (authz.GetLabels peer)
               | inr _ => false
               end
        end
    | _ => false
    end.
Proof.
  destruct (yields_parseSpiffeId (authz.GetPrincipal peer))
    as ([[name namespace] err] & Hy & -> & _).
  unfold matchServiceAccounts. yields_step.
  eapply yields_bind; [exact Hy|]. cbv beta iota zeta.
  destruct err as [err|]; [repeat yields_step|]. yields_step.
  destruct saMatch as [saMatch|]; [|repeat yields_step].
  eapply yields_bind; [apply yields_matchServiceAccountName|].
  destruct (if Nat.eqb _ 0 then true else _); simpl.
  - apply yields_matchServiceAccountLabels.
  - apply yields_ret.
Qed.

Lemma yields_match rule req :
  exists bp br,
    yields wf_regexp
      (matchPeer (api.Source rule) (authz.GetSource (authz.GetAttributes req))) bp
    /\ yields wf_regexp
         (matchRequest rule (authz.GetRequest (authz.GetAttributes req))) br
    /\ yields wf_regexp (match_ rule req) (bp && br).
Proof.
  destruct (yields_matchRequest wf_regexp rule
              (authz.GetRequest (authz.GetAttributes req))) as (br & Hr & _).
  eexists _, br. split; [apply yields_matchServiceAccounts|]. split; [exact Hr|].
  unfold match_. yields_step.
  eapply yields_bind; [apply yields_matchServiceAccounts|].
  match goal with |- yields _ (if ?b then _ else _) _ => destruct b end; simpl.
  - exact Hr.
  - apply yields_ret.
Qed.

End RuleFacts.

(** ** The handler *)

Lemma Code_value_INTERNAL : rpc.Code_value_at "INTERNAL" = 13%Z.
Proof. vm_compute. reflexivity. Qed.

Section HandlerFacts.

Context `{HandlerDeps}.

(** [Check], path by path. *)
Lemma Check_run as_ ctx req w :
  Check as_ ctx req w
  = let opened := journal w ++ [Entry DebugLevel "Check(%v, %v)"] in
    match getContainerFromContext ctx with
    | (_, Some _) =>
        Ret (Some {| authz.Status := Some INTERNAL |}, None,
             World (spiffeIdRegExp w)
               (opened ++ [Entry ErrorLevel "Failed to get container ID. %v"]))
    | (cid, None) =>
        let '(name, namespace, err) :=
          GetEndpointFromContainer (Query as_) cid (NodeName as_) in
        let resolved :=
          opened ++ match err with
                    | Some _ =>
                        [Entry ErrorLevel "Failed to get endpoint for container %v. %v"]
                    | None => []
                    end in
        match GetPolicies (Query as_) name namespace with
        | (_, Some _) =>
            Ret (Some {| authz.Status := Some INTERNAL |}, None,
                 World (spiffeIdRegExp w)
                   (resolved ++ [Entry ErrorLevel "Failed to get policies. %v"]))
        | (policies, None) =>
            (st <- checkPolicies policies req ;;
             log InfoLevel "Check complete" ;;
             ret (Some {| authz.Status := Some st |}, None))
              (World (spiffeIdRegExp w) resolved)
        end
    end.
Proof.
  unfold Check, INTERNAL. rewrite Code_value_INTERNAL.
  unfold bind at 1. cbn [log spiffeIdRegExp journal].
  destruct (getContainerFromContext ctx) as [cid [e|]]; [reflexivity|].
  destruct (GetEndpointFromContainer _ cid _) as [[name namespace] err].
  unfold bind at 1.
  destruct err as [err|]; cbn [log ret spiffeIdRegExp journal];
    rewrite ?app_nil_r;
    destruct (GetPolicies _ name namespace) as [policies [e|]]; reflexivity.
Qed.

(** [Check] answers whenever the combiner does. *)
Lemma Check_returns as_ ctx req w :
  (forall policies w0, wf_world w0 ->
     exists st w1, checkPolicies policies req w0 = Ret (st, w1)) ->
  wf_world w ->
  exists resp w',
    Check as_ ctx req w = Ret (Some resp, None, w')
    /\ match getContainerFromContext ctx with
       | (_, Some _) => authz.Status resp = Some INTERNAL
       | (cid, None) =>
           let '(name, namespace, _) :=
             GetEndpointFromContainer (Query as_) cid (NodeName as_) in
           match GetPolicies (Query as_) name namespace with
           | (_, Some _) => authz.Status resp = Some INTERNAL
           | (policies, None) =>
               exists st w0, wf_world w0
                 /\ value (checkPolicies policies req) w0 = Some st
                 /\ authz.Status resp = Some st
           end
       end.
Proof.
  intros Htotal Hw. rewrite Check_run. cbv zeta.
  destruct (getContainerFromContext ctx) as [cid [e|]]; [eauto|].
  destruct (GetEndpointFromContainer _ cid _) as [[name namespace] err].
  destruct (GetPolicies _ name namespace) as [policies [e|]]; [eauto|].
  match goal with |- context [bind _ _ ?w1] => set (w0 := w1) end.
  assert (Hw0 : wf_world w0) by exact Hw.
  destruct (Htotal policies w0 Hw0) as (st & w1 & E).
  unfold bind. rewrite E. cbn [log ret].
  eexists _, _. split; [reflexivity|].
  exists st, w0. unfold value. rewrite E. auto.
Qed.

End HandlerFacts.

(** The sample combiner answers from every world the package can be in. *)
Lemma sample_any_yields rules req :
  exists b, yields wf_regexp (sample_any rules req) b.
Proof.
  induction rules as [|r rules [b IH]]; simpl.
  - eexists. apply yields_ret.
  - destruct (yields_match r req) as (bp & br & _ & _ & Hm).
    destruct (bp && br) eqn:E.
    + exists true. eapply yields_bind; [exact Hm|]. apply yields_ret.
    + exists b. eapply yields_bind; [exact Hm|]. exact IH.
Qed.

Lemma sample_checkPolicies_returns policies req w0 :
  wf_world w0 -> exists st w1, sample_checkPolicies policies req w0 = Ret (st, w1).
Proof.
  intros Hw. destruct (sample_any_yields (concat policies) req) as (b & Hb).
  destruct (Hb w0 Hw) as (w1 & E & _).
  unfold sample_checkPolicies, bind. rewrite E. eexists _, _. reflexivity.
Qed.

(** ** Statements about the matchers *)

(** C6.  [matchServiceAccountName] always answers; the answer is true when
    the list of names is empty, and otherwise exactly when the account name
    occurs in the list, compared byte for byte.  In particular the empty list
    accepts every name, ["x"] accepts "x" and rejects "y", and letter case is
    not folded. *)
Theorem matchServiceAccountName_spec (names : list string) (name : string) (w : world) :
  (exists b,
     value (matchServiceAccountName names name) w = Some b
     /\ (b = true <-> names = [] \/ In name names))
  /\ value (matchServiceAccountName [] name) w = Some true
  /\ value (matchServiceAccountName ["x"] "x") w = Some true
  /\ value (matchServiceAccountName ["x"] "y") w = Some false
  /\ value (matchServiceAccountName ["x"] "X") w = Some false.
Proof.
  assert (V : forall ns n,
             value (matchServiceAccountName ns n) w
             = Some (if Nat.eqb (length ns) 0 then true
                     else default false (range_names ns n))).
  { intros ns n.
    apply (yields_value (fun _ => True)); [apply yields_matchServiceAccountName | exact I]. }
  split; [|rewrite !V; repeat split; reflexivity].
  eexists. split; [apply V|].
  destruct names as [|n names]; simpl; [tauto|].
  destruct (String.eqb_spec n name) as [->|Hne]; simpl.
  - split; auto.
  - destruct (in_dec string_dec name names) as [Hin|Hnin].
    + rewrite (range_names_In _ _ Hin). simpl. tauto.
    + rewrite (range_names_not_In _ _ Hnin). simpl.
      split; [discriminate|]. intros [?|[?|?]]; [discriminate | congruence | contradiction].
Qed.

(** C3.  [matchHTTP] always answers; the answer is true when the rule is
    absent, when its list of methods is empty, and when some entry is "*" or
    is the method of the request, compared byte for byte; it is false
    otherwise.  So a "*" anywhere in the list accepts every method, and the
    list GET, POST accepts GET and rejects DELETE. *)
Theorem matchHTTP_spec (rule : option api.HTTPRule)
    (req : option authz.AttributeContext_HTTPRequest) (w : world) :
  (exists b,
     value (matchHTTP rule req) w = Some b
     /\ (b = true <->
         rule = None
         \/ exists r, rule = Some r
              /\ (api.Methods r = [] \/ In "*" (api.Methods r)
                  \/ In (authz.GetMethod req) (api.Methods r))))
  /\ (forall r, rule = Some r -> In "*" (api.Methods r) ->
        value (matchHTTP rule req) w = Some true)
  /\ value (matchHTTP (Some {| api.Methods := ["GET"; "POST"] |})
              (Some {| authz.Method := "DELETE" |})) w = Some false
  /\ value (matchHTTP (Some {| api.Methods := ["GET"; "POST"] |})
              (Some {| authz.Method := "GET" |})) w = Some true
  /\ value (matchHTTP (Some {| api.Methods := ["GET"; "POST"] |})
              (Some {| authz.Method := "get" |})) w = Some false.
Proof.
  assert (V : forall r q,
             value (matchHTTP r q) w
             = Some match r with
                    | None => true
                    | Some r =>
                        if Nat.eqb (length (api.Methods r)) 0 then true
                        else existsb (fun m => String.eqb m "*"
                                               || String.eqb m (authz.GetMethod q))
                               (api.Methods r)
                    end).
  { intros r q.
    apply (yields_value (fun _ => True)); [apply yields_matchHTTP | exact I]. }
  assert (G : exists b,
     value (matchHTTP rule req) w = Some b
     /\ (b = true <->
         rule = None
         \/ exists r, rule = Some r
              /\ (api.Methods r = [] \/ In "*" (api.Methods r)
                  \/ In (authz.GetMethod req) (api.Methods r)))).
  { eexists. split; [apply V|].
    destruct rule as [r|]; [|tauto].
    destruct (api.Methods r) as [|m ms] eqn:E.
    - simpl. split; [intros _; right; exists r; rewrite E; auto | reflexivity].
    - cbn [length Nat.eqb]. rewrite existsb_method. split.
      + intros Hin. right. exists r. rewrite E. tauto.
      + intros [?|(r' & [= <-] & Hr)]; [discriminate|].
        rewrite E in Hr. destruct Hr as [?|?]; [discriminate | assumption]. }
  split; [exact G|]. split; [|rewrite !V; repeat split; reflexivity].
  intros r -> Hin. destruct G as (b & -> & Hb). f_equal. apply Hb.
  right. exists r. auto.
Qed.

(** C5.  [matchServiceAccountLabels] hands the expression to the selector
    library and answers with the evaluation of the parsed selector on the
    labels; when the library rejects the expression the answer is false, the
    rejection is logged at warning level, and the function still returns a
    plain boolean.  For the empty expression the answer is true, the library
    reading the empty expression as the selector of everything. *)
Theorem matchServiceAccountLabels_spec `{SelectorLib}
    (selectorStr : string) (labels : gmap string string) (w : world)
    (empty_selects_all :
       exists sel, selector_Parse "" = inl sel
                   /\ forall l, selector_Evaluate sel l = true) :
  (selectorStr = "" ->
     value (matchServiceAccountLabels selectorStr labels) w = Some true)
  /\ match selector_Parse selectorStr with
     | inl sel =>
         value (matchServiceAccountLabels selectorStr labels) w
         = Some (selector_Evaluate sel labels)
     | inr _ =>
         matchServiceAccountLabels selectorStr labels w
         = Ret (false,
                World (spiffeIdRegExp w)
                  (journal w
                   ++ [Entry DebugLevel "Matching service account labels.";
                       Entry WarnLevel "Could not parse policy selector %v, %v"]))
     end.
Proof.
  split.
  - intros ->. destruct empty_selects_all as (sel & E & Hall).
    unfold value, matchServiceAccountLabels, bind, log, ret. rewrite E.
    cbn. now rewrite Hall.
  - unfold value, matchServiceAccountLabels, bind, log, ret.
    destruct (selector_Parse selectorStr); cbn; [reflexivity|].
    now rewrite <- app_assoc.
Qed.

Lemma matchServiceAccountLabels_spec_witness :
  (exists sel, sample_Parse "" = inl sel /\ forall l, sample_Evaluate sel l = true)
  /\ value (matchServiceAccountLabels "" {["role" := "db"]}) init_world = Some true
  /\ value (matchServiceAccountLabels "role == 'web'" {["role" := "web"]}) init_world
     = Some true
  /\ value (matchServiceAccountLabels "role = web" {["role" := "web"]}) init_world
     = Some false.
Proof.
  assert (Hlib : exists sel, sample_Parse "" = inl sel
                             /\ forall l, sample_Evaluate sel l = true).
  { exists SelAll. split; reflexivity. }
  split; [exact Hlib|]. split; [|split].
  - exact (proj1 (matchServiceAccountLabels_spec "" {["role" := "db"]} init_world Hlib)
             eq_refl).
  - exact (proj2 (matchServiceAccountLabels_spec "role == 'web'" {["role" := "web"]}
                    init_world Hlib)).
  - vm_compute. reflexivity.
Defined.

(** C4.  From any world the package can be in, [parseSpiffeId] answers, and
    it succeeds exactly on the strings spiffe://<domain>/ns/<namespace>/sa/<name>
    whose three segments are non-empty and free of slashes.  On success the
    answer carries that name and that namespace, both non-empty, and no error;
    on failure it carries two empty strings and the error that quotes the
    pattern and the offending string.  For instance
    spiffe://cluster.local/ns/foo/sa/bar gives name bar and namespace foo, and
    not-a-spiffe-id is rejected. *)
Theorem parseSpiffeId_spec (id : string) (w : world) (Hw : wf_world w) :
  (exists name namespace err,
     value (parseSpiffeId id) w = Some (name, namespace, err)
     /\ match err with
        | None => spiffe_shape id name namespace /\ name <> "" /\ namespace <> ""
        | Some e =>
            name = "" /\ namespace = "" /\ e = MalformedIdentity id
            /\ forall n ns, ~ spiffe_shape id n ns
        end)
  /\ (forall name namespace,
        spiffe_shape id name namespace ->
        value (parseSpiffeId id) w = Some (name, namespace, None))
  /\ value (parseSpiffeId "spiffe://cluster.local/ns/foo/sa/bar") w
     = Some ("bar", "foo", None)
  /\ value (parseSpiffeId "not-a-spiffe-id") w
     = Some ("", "", Some (MalformedIdentity "not-a-spiffe-id")).
Proof.
  split; [|split].
  - destruct (yields_parseSpiffeId id) as ([[name namespace] err] & Hy & _ & Hr).
    exists name, namespace, err. split; [exact (yields_value _ _ _ _ Hy Hw)|].
    destruct err as [e|]; [exact Hr|].
    split; [exact Hr|]. destruct Hr as (domain & _ & _ & [Hn _] & [Ha _]). auto.
  - intros name namespace Hshape.
    destruct (yields_parseSpiffeId id) as ([[n s] err] & Hy & _ & Hr).
    rewrite (yields_value _ _ _ _ Hy Hw).
    destruct err as [e|].
    + destruct Hr as (_ & _ & _ & Hr). destruct (Hr _ _ Hshape).
    + apply spiffe_match_of_shape in Hr, Hshape. congruence.
  - rewrite !(parseSpiffeId_value _ w Hw). split; vm_compute; reflexivity.
Qed.

Lemma parseSpiffeId_spec_witness :
  wf_world init_world
  /\ value (parseSpiffeId "spiffe://example.org/ns/prod/sa/web") init_world
     = Some ("web", "prod", None).
Proof.
  split; [left; reflexivity|].
  apply (proj1 (proj2 (parseSpiffeId_spec "spiffe://example.org/ns/prod/sa/web"
                         init_world (or_introl eq_refl)))).
  exists "example.org". repeat split; discriminate.
Defined.

Section RuleStatements.

Context `{SelectorLib}.

(** C1, as the code has it.  With an absent ServiceAccountMatch,
    [matchServiceAccounts] is true for every peer whose principal parses as
    an identity, whatever the labels; and a rule with absent
    ServiceAccountMatch and absent HTTP matches every request whose peer
    principal parses. *)
Theorem absent_constraints_match (rule : api.Rule)
    (req : option authz.CheckRequest) (w : world) :
  wf_world w ->
  api.ServiceAccounts (api.Source rule) = None ->
  api.HTTP rule = None ->
  parses (authz.GetPrincipal (authz.GetSource (authz.GetAttributes req))) = true ->
  value (matchServiceAccounts None (authz.GetSource (authz.GetAttributes req))) w
  = Some true
  /\ value (match_ rule req) w = Some true.
Proof.
  intros Hw Hsa Hhttp Hp.
  pose proof (yields_matchServiceAccounts None
                (authz.GetSource (authz.GetAttributes req))) as Hy.
  unfold parses in Hp.
  destruct (value (parseSpiffeId _) init_world) as [[[n s] [e|]]|];
    try discriminate.
  split; [exact (yields_value _ _ _ _ Hy Hw)|].
  apply (yields_value wf_regexp); [|exact Hw].
  unfold match_, matchPeer. rewrite Hsa. yields_step.
  eapply yields_bind; [exact Hy|]. cbv iota.
  unfold matchRequest. yields_step. rewrite Hhttp. apply yields_matchHTTP.
Qed.

(** C2.  From any world the package can be in, [match] answers with the
    conjunction of the answers of [matchPeer] and [matchRequest]; the answer
    of [matchPeer] is false when the peer principal does not parse.  The
    answer is the same from every such world, and the call leaves such a
    world behind, with a journal that extends the one it found. *)
Theorem match_conjunction (rule : api.Rule) (req : option authz.CheckRequest)
    (w : world) (Hw : wf_world w) :
  let attr := authz.GetAttributes req in
  exists bp br,
    value (matchPeer (api.Source rule) (authz.GetSource attr)) w = Some bp
    /\ value (matchRequest rule (authz.GetRequest attr)) w = Some br
    /\ value (match_ rule req) w = Some (bp && br)
    /\ (parses (authz.GetPrincipal (authz.GetSource attr)) = false ->
        bp = false /\ value (match_ rule req) w = Some false)
    /\ (forall w2, wf_world w2 -> value (match_ rule req) w2 = Some (bp && br))
    /\ exists w' j,
         after (match_ rule req) w = Some w' /\ wf_world w'
         /\ journal w' = journal w ++ j.
Proof.
  intros attr. subst attr.
  destruct (yields_match rule req) as (bp & br & Hp & Hr & Hm).
  exists bp, br.
  split; [exact (yields_value _ _ _ _ Hp Hw)|].
  split; [exact (yields_value _ _ _ _ Hr Hw)|].
  split; [exact (yields_value _ _ _ _ Hm Hw)|].
  split; [|split].
  - intros Hno.
    assert (bp = false) as ->; [|split; [reflexivity|exact (yields_value _ _ _ _ Hm Hw)]].
    pose proof (yields_value _ _ _ _ Hp Hw) as V1.
    pose proof (yields_value _ _ _ _
                  (yields_matchServiceAccounts
                     (api.ServiceAccounts (api.Source rule))
                     (authz.GetSource (authz.GetAttributes req))) Hw) as V2.
    unfold matchPeer in V1. rewrite V1 in V2. injection V2 as ->.
    unfold parses in Hno.
    destruct (value (parseSpiffeId _) init_world) as [[[n s] [e|]]|];
      try reflexivity. discriminate.
  - intros w2 Hw2. exact (yields_value _ _ _ _ Hm Hw2).
  - exact (yields_after _ _ _ _ Hm Hw).
Qed.

End RuleStatements.

Lemma absent_constraints_match_witness :
  wf_world init_world
  /\ value (match_ {| api.Source := {| api.ServiceAccounts := None |};
                      api.HTTP := None |}
              (sample_request "spiffe://cluster.local/ns/foo/sa/bar" ∅ "DELETE"))
       init_world
     = Some true.
Proof.
  split; [left; reflexivity|].
  exact (proj2 (absent_constraints_match
                  {| api.Source := {| api.ServiceAccounts := None |};
                     api.HTTP := None |}
                  (sample_request "spiffe://cluster.local/ns/foo/sa/bar" ∅ "DELETE")
                  init_world (or_introl eq_refl) eq_refl eq_refl eq_refl)).
Defined.

(** C1, as stated, fails: a rule with absent ServiceAccountMatch and absent
    HTTP does not match a request whose peer principal is not a SPIFFE ID. *)
Lemma absent_constraints_unparsed_principal :
  ~ (forall (rule : api.Rule) (req : option authz.CheckRequest),
       api.ServiceAccounts (api.Source rule) = None ->
       api.HTTP rule = None ->
       value (match_ rule req) init_world = Some true).
Proof.
  intros Hall.
  specialize (Hall {| api.Source := {| api.ServiceAccounts := None |};
                      api.HTTP := None |}
                (sample_request "not-a-spiffe-id" ∅ "GET") eq_refl eq_refl).
  vm_compute in Hall. discriminate.
Qed.

Lemma match_conjunction_witness :
  wf_world init_world
  /\ value (match_ sample_rule
              (sample_request "spiffe://cluster.local/ns/foo/sa/bar"
                 {["role" := "web"]} "GET")) (World (Some spiffe_prog) [])
     = Some true.
Proof.
  split; [left; reflexivity|].
  destruct (match_conjunction sample_rule
              (sample_request "spiffe://cluster.local/ns/foo/sa/bar"
                 {["role" := "web"]} "GET") init_world (or_introl eq_refl))
    as (bp & br & _ & _ & V & _ & Hall & _).
  rewrite (Hall (World (Some spiffe_prog) []) (or_intror eq_refl)).
  rewrite <- V. vm_compute. reflexivity.
Defined.

(** ** Statements about the handler *)

Section HandlerStatements.

Context `{HandlerDeps}.




End HandlerStatements.







(** ** Further facts about the matchers *)

Lemma names_ok_iff (names : list string) (name : string) :
  (if Nat.eqb (length names) 0 then true
   else default false (range_names names name)) = true
  <-> names = [] \/ In name names.
Proof.
  destruct names as [|n names]; [simpl; tauto|].
  cbn [length Nat.eqb].
  destruct (in_dec string_dec name (n :: names)) as [Hin|Hnin].
  - rewrite (range_names_In _ _ Hin). simpl. tauto.
  - rewrite (range_names_not_In _ _ Hnin). simpl.
    split; [discriminate|]. intros [?|?]; [discriminate | contradiction].
Qed.

Lemma methods_ok_iff (methods : list string) (reqMethod : string) :
  (if Nat.eqb (length methods) 0 then true
   else existsb (fun m => String.eqb m "*" || String.eqb m reqMethod) methods) = true
  <-> methods = [] \/ In "*" methods \/ In reqMethod methods.
Proof.
  destruct methods as [|m methods]; [simpl; tauto|].
  cbn [length Nat.eqb]. rewrite existsb_method.
  split; [tauto|]. intros [?|?]; [discriminate | assumption].
Qed.

Lemma bool_eq_of_iff (b1 b2 : bool) (P1 P2 : Prop) :
  (b1 = true <-> P1) -> (b2 = true <-> P2) -> (P1 <-> P2) -> b1 = b2.
Proof. destruct b1, b2; intuition congruence. Qed.

(** A string has at most one reading as a SPIFFE ID. *)
Lemma spiffe_shape_unique id name namespace name' namespace' :
  spiffe_shape id name namespace -> spiffe_shape id name' namespace' ->
  name = name' /\ namespace = namespace'.
Proof.
  intros H1%spiffe_match_of_shape H2%spiffe_match_of_shape.
  rewrite H1 in H2. injection H2 as -> ->. auto.
Qed.

Lemma parse_value_of_shape id name namespace :
  spiffe_shape id name namespace ->
  value (parseSpiffeId id) init_world = Some (name, namespace, None).
Proof.
  intros Hshape.
  destruct (yields_parseSpiffeId id) as ([[n s] [e|]] & _ & -> & Hr).
  - destruct Hr as (_ & _ & _ & Hr). destruct (Hr _ _ Hshape).
  - destruct (spiffe_shape_unique _ _ _ _ _ Hr Hshape) as [-> ->]. reflexivity.
Qed.

Section MoreRuleFacts.

Context `{SelectorLib}.

(** The answer of [match], as one expression. *)
Lemma match_value rule req w :
  wf_world w ->
  value (match_ rule req) w
  = Some
      (match value (parseSpiffeId
                      (authz.GetPrincipal (authz.GetSource (authz.GetAttributes req))))
               init_world with
       | Some (accountName, _, None) =>
           match api.ServiceAccounts (api.Source rule) with
           | None => true
           | Some saMatch =>
               (if Nat.eqb (length (api.Names saMatch)) 0 then true
                else default false (range_names (api.Names saMatch) accountName))
               && match selector_Parse (api.Selector saMatch) with
                  | inl sel =>
                      selector_Evaluate sel
                        (authz.GetLabels (authz.GetSource (authz.GetAttributes req)))
                  | inr _ => false
                  end
           end
       | _ => false
       end
       && match api.HTTP rule with
          | None => true
          | Some h =>
              if Nat.eqb (length (api.Methods h)) 0 then true
              else existsb
                     (fun m => String.eqb m "*"
                               || String.eqb m
                                    (authz.GetMethod
                                       (authz.GetHttp
                                          (authz.GetRequest (authz.GetAttributes req)))))
                     (api.Methods h)
          end).
Proof.
  intros Hw. apply (yields_value wf_regexp); [|exact Hw].
  unfold match_, matchPeer. yields_step.
  eapply yields_bind; [apply yields_matchServiceAccounts|].
  match goal with |- yields _ (if ?b then _ else _) _ => destruct b end; cbn [andb].
  - unfold matchRequest. yields_step. apply yields_matchHTTP.
  - apply yields_ret.
Qed.

(** X1.  [match] is true exactly when the peer principal reads as a SPIFFE
    ID, the service account constraint of the rule (if any) accepts the
    account name and the labels, and the HTTP constraint (if any) accepts the
    method. *)
Theorem match_true_iff (rule : api.Rule) (req : option authz.CheckRequest)
    (w : world) (Hw : wf_world w) :
  let attr := authz.GetAttributes req in
  let peer := authz.GetSource attr in
  value (match_ rule req) w = Some true
  <-> (exists name namespace,
         spiffe_shape (authz.GetPrincipal peer) name namespace
         /\ match api.ServiceAccounts (api.Source rule) with
            | None => True
            | Some sa =>
                (api.Names sa = [] \/ In name (api.Names sa))
                /\ exists sel,
                     selector_Parse (api.Selector sa) = inl sel
                     /\ selector_Evaluate sel (authz.GetLabels peer) = true
            end)
      /\ match api.HTTP rule with
         | None => True
         | Some h =>
             api.Methods h = [] \/ In "*" (api.Methods h)
             \/ In (authz.GetMethod (authz.GetHttp (authz.GetRequest attr)))
                  (api.Methods h)
         end.
Proof.
  intros attr peer. subst attr peer. rewrite (match_value _ _ _ Hw).
  set (id := authz.GetPrincipal _).
  assert (Hhttp : forall b : bool,
            Some (b && match api.HTTP rule with
                       | None => true
                       | Some h =>
                           if Nat.eqb (length (api.Methods h)) 0 then true
                           else existsb
                                  (fun m => String.eqb m "*"
                                            || String.eqb m
                                                 (authz.GetMethod
                                                    (authz.GetHttp
                                                       (authz.GetRequest
                                                          (authz.GetAttributes req)))))
                                  (api.Methods h)
                       end) = Some true
            <-> b = true
                /\ match api.HTTP rule with
                   | None => True
                   | Some h =>
                       api.Methods h = [] \/ In "*" (api.Methods h)
                       \/ In (authz.GetMethod
                                (authz.GetHttp
                                   (authz.GetRequest (authz.GetAttributes req))))
                            (api.Methods h)
                   end).
  { intros b. destruct (api.HTTP rule) as [h|].
    - rewrite <- methods_ok_iff. destruct b, (if Nat.eqb _ 0 then true else _);
        simpl; intuition congruence.
    - destruct b; simpl; intuition congruence. }
  rewrite Hhttp. clear Hhttp.
  apply and_iff_compat_r.
  destruct (yields_parseSpiffeId id) as ([[n s] [e|]] & _ & -> & Hr).
  - destruct Hr as (_ & _ & _ & Hr). split; [discriminate|].
    intros (name & namespace & Hshape & _). destruct (Hr _ _ Hshape).
  - destruct (api.ServiceAccounts (api.Source rule)) as [sa|].
    + rewrite andb_true_iff, names_ok_iff. split.
      * intros [Hn Hsel]. exists n, s. repeat split; [assumption.. |].
        destruct (selector_Parse (api.Selector sa)) as [sel|]; [eauto | discriminate].
      * intros (name & namespace & Hshape & Hn & sel & E & Hsel).
        destruct (spiffe_shape_unique _ _ _ _ _ Hr Hshape) as [-> ->].
        rewrite E. auto.
    + split; [eauto | reflexivity].
Qed.

(** X2.  Neither the trust domain nor the namespace of the peer takes part
    in the decision: two requests whose principals are SPIFFE IDs with the
    same account name, and that agree on labels and method, get the same
    answer from every rule. *)
Theorem match_ignores_namespace (rule : api.Rule)
    (req1 req2 : option authz.CheckRequest) (w : world)
    (name namespace1 namespace2 : string) :
  wf_world w ->
  spiffe_shape (authz.GetPrincipal (authz.GetSource (authz.GetAttributes req1)))
    name namespace1 ->
  spiffe_shape (authz.GetPrincipal (authz.GetSource (authz.GetAttributes req2)))
    name namespace2 ->
  authz.GetLabels (authz.GetSource (authz.GetAttributes req1))
  = authz.GetLabels (authz.GetSource (authz.GetAttributes req2)) ->
  authz.GetMethod (authz.GetHttp (authz.GetRequest (authz.GetAttributes req1)))
  = authz.GetMethod (authz.GetHttp (authz.GetRequest (authz.GetAttributes req2))) ->
  value (match_ rule req1) w = value (match_ rule req2) w.
Proof.
  intros Hw H1 H2 Hl Hm. rewrite !(match_value _ _ _ Hw).
  rewrite (parse_value_of_shape _ _ _ H1), (parse_value_of_shape _ _ _ H2), Hl, Hm.
  reflexivity.
Qed.

(** X3.  A rule whose selector expression the library rejects matches no
    request at all. *)
Theorem match_invalid_selector (rule : api.Rule) (sa : api.ServiceAccountMatch)
    (err : error) (req : option authz.CheckRequest) (w : world) :
  wf_world w ->
  api.ServiceAccounts (api.Source rule) = Some sa ->
  selector_Parse (api.Selector sa) = inr err ->
  value (match_ rule req) w = Some false.
Proof.
  intros Hw Hsa Hsel. rewrite (match_value _ _ _ Hw), Hsa, Hsel.
  destruct (value (parseSpiffeId _) init_world) as [[[n s] [e|]]|];
    try reflexivity.
  now rewrite andb_false_r.
Qed.

(** X4.  When the peer principal does not read as a SPIFFE ID, [match]
    answers false after logging the warning, and goes no further: the selector
    library is not called and the HTTP constraint is not looked at, so the
    journal gains exactly three entries. *)
Theorem match_unparsed_stops (rule : api.Rule) (req : option authz.CheckRequest)
    (w : world) :
  wf_world w ->
  parses (authz.GetPrincipal (authz.GetSource (authz.GetAttributes req))) = false ->
  match_ rule req w
  = Ret (false,
         World (Some spiffe_prog)
           (journal w
            ++ [Entry DebugLevel "Checking rule %v on request %v";
                Entry DebugLevel "Matching service account.";
                Entry WarnLevel
                  "Unable to parse authenticated principle as SPIFFE ID."])).
Proof.
  intros Hw Hno.
  unfold match_, matchPeer, matchServiceAccounts, bind, log.
  cbn [spiffeIdRegExp journal].
  match goal with
  | |- context [parseSpiffeId ?i ?u] =>
      destruct (parseSpiffeId_run i u Hw) as ([[n s] [e|]] & -> & Hr)
  end.
  - cbv beta iota. unfold ret. cbn [spiffeIdRegExp journal].
    rewrite Compile_SPIFFE_ID_PATTERN, <- !app_assoc. reflexivity.
  - assert (parses (authz.GetPrincipal
                      (authz.GetSource (authz.GetAttributes req))) = true)
      by (apply parses_shape; eauto).
    congruence.
Qed.

End MoreRuleFacts.

(** X5.  The selector library is consulted only for a peer that has passed
    the name test: when the principal does not read as a SPIFFE ID, or its
    account name is not among the names of a non-empty list, [match] behaves
    the same, journal included, whatever the selector library is. *)
Theorem selector_not_consulted (lib1 lib2 : SelectorLib) (rule : api.Rule)
    (sa : api.ServiceAccountMatch) (req : option authz.CheckRequest) (w : world) :
  wf_world w ->
  api.ServiceAccounts (api.Source rule) = Some sa ->
  (forall name namespace,
     spiffe_shape (authz.GetPrincipal (authz.GetSource (authz.GetAttributes req)))
       name namespace ->
     api.Names sa <> [] /\ ~ In name (api.Names sa)) ->
  @match_ lib1 rule req w = @match_ lib2 rule req w.
Proof.
  intros Hw Hsa Hout.
  unfold match_, matchPeer, matchServiceAccounts, bind, log. rewrite Hsa.
  cbn [spiffeIdRegExp journal].
  match goal with
  | |- context [parseSpiffeId ?i ?u] =>
      destruct (parseSpiffeId_run i u Hw) as ([[n s] [e|]] & -> & Hr)
  end; [reflexivity|].
  destruct (Hout _ _ Hr) as [Hne Hnin].
  unfold matchServiceAccountName, bind, log.
  destruct (api.Names sa) as [|n0 names] eqn:E; [congruence|].
  cbn [length Nat.eqb]. rewrite (range_names_not_In _ _ Hnin). reflexivity.
Qed.

(** X6.  [parseSpiffeId] assigns the package variable only when it is nil.
    From a world where it is nil, a call leaves the compiled pattern in it and
    nothing else changed.  From a world where it is not nil, whatever it
    holds, a call that returns leaves the world exactly as it found it; and
    when it holds the compiled pattern the call does return.  So in a
    sequence of calls the pattern is compiled by the first one only.  The
    journal is never written. *)
Theorem parseSpiffeId_compiles_once (id : string) (w : world) :
  match spiffeIdRegExp w with
  | None =>
      after (parseSpiffeId id) w = Some (World (Some spiffe_prog) (journal w))
  | Some re =>
      (forall r w', parseSpiffeId id w = Ret (r, w') -> w' = w)
      /\ (re = spiffe_prog -> after (parseSpiffeId id) w = Some w)
  end.
Proof.
  destruct w as [[re|] j]; cbn [spiffeIdRegExp journal].
  - split.
    + intros r w'.
      unfold parseSpiffeId, bind, get_spiffeIdRegExp, set_spiffeIdRegExp, ret.
      cbn [spiffeIdRegExp journal].
      destruct (regexp.FindStringSubmatch re id) as [m|]; [|intros [= _ <-]; reflexivity].
      unfold index, bind, ret, panic.
      destruct (m !! 2); [|discriminate]. destruct (m !! 1); [|discriminate].
      intros [= _ <-]. reflexivity.
    + intros ->.
      destruct (parseSpiffeId_run id (World (Some spiffe_prog) j)
                  (or_intror (eq_sym Compile_SPIFFE_ID_PATTERN))) as (r & E & _).
      unfold after. rewrite E, Compile_SPIFFE_ID_PATTERN. reflexivity.
  - destruct (parseSpiffeId_run id (World None j) (or_introl eq_refl)) as (r & E & _).
    unfold after. rewrite E, Compile_SPIFFE_ID_PATTERN. reflexivity.
Qed.

(** X7.  The answer of [matchHTTPMethods] depends only on which methods
    occur in the list, not on their order or on repetitions. *)
Theorem matchHTTPMethods_same_entries (methods methods' : list string)
    (reqMethod : string) (w : world) :
  (forall m, In m methods <-> In m methods') ->
  value (matchHTTPMethods methods reqMethod) w
  = value (matchHTTPMethods methods' reqMethod) w.
Proof.
  intros Hsame.
  rewrite !(yields_value (fun _ => True) _ _ _ (yields_matchHTTPMethods _ _ _) I).
  f_equal. eapply bool_eq_of_iff; [apply methods_ok_iff.. |].
  pose proof (Hsame "*"). pose proof (Hsame reqMethod).
  assert (methods = [] <-> methods' = []); [|tauto].
  destruct methods as [|m ms], methods' as [|m' ms'].
  - tauto.
  - destruct (proj2 (Hsame m') (or_introl eq_refl)).
  - destruct (proj1 (Hsame m) (or_introl eq_refl)).
  - split; discriminate.
Qed.

(** X8.  Adding names to a list that is not empty never takes a match away,
    while the empty list accepts every name and turning it into a list of one
    name takes the match away from every other name. *)
Theorem matchServiceAccountName_widening (names names' : list string)
    (name other : string) (w : world) :
  names <> [] ->
  (forall n, In n names -> In n names') ->
  (value (matchServiceAccountName names name) w = Some true ->
   value (matchServiceAccountName names' name) w = Some true)
  /\ value (matchServiceAccountName [] name) w = Some true
  /\ (other <> name -> value (matchServiceAccountName [other] name) w = Some false).
Proof.
  intros Hne Hincl.
  assert (V : forall ns n,
             value (matchServiceAccountName ns n) w
             = Some (if Nat.eqb (length ns) 0 then true
                     else default false (range_names ns n))).
  { intros ns n.
    apply (yields_value (fun _ => True)); [apply yields_matchServiceAccountName | exact I]. }
  rewrite !V. split; [|split; [reflexivity|]].
  - intros [= Hm]. f_equal. apply names_ok_iff. apply names_ok_iff in Hm.
    destruct Hm as [?|Hin]; [contradiction | auto].
  - intros Hother. simpl. apply String.eqb_neq in Hother. now rewrite Hother.
Qed.

Section MoreHandlerFacts.

Context `{HandlerDeps}.

(** X9.  When the container identifier cannot be read from the context,
    [Check] answers INTERNAL without consulting the provider or the combiner
    and without looking at the request. *)
Theorem Check_no_container (as1 as2 : auth_server) (ctx : context_Context)
    (req1 req2 : option authz.CheckRequest) (w : world) (cid : string) (e : error) :
  getContainerFromContext ctx = (cid, Some e) ->
  Check as1 ctx req1 w = Check as2 ctx req2 w
  /\ value (Check as1 ctx req1) w
     = Some (Some {| authz.Status := Some INTERNAL |}, None).
Proof.
  intros Hctx. unfold value. rewrite !Check_run, Hctx. cbv zeta.
  split; reflexivity.
Qed.

End MoreHandlerFacts.

(** ** The constructors *)

Lemma range_overridesMap_plain (endpoint cert key ca token : string) :
  range_overridesMap
    [(clientcmd.ClusterInfo_Server, endpoint);
     (clientcmd.AuthInfo_ClientCertificate, cert);
     (clientcmd.AuthInfo_ClientKey, key);
     (clientcmd.ClusterInfo_CertificateAuthority, ca);
     (clientcmd.AuthInfo_Token, token)] clientcmd.no_overrides
  = {| clientcmd.OverridesAuthInfo :=
         {| clientcmd.ClientCertificate := cert; clientcmd.ClientKey := key;
            clientcmd.Token := token |};
       clientcmd.OverridesClusterInfo :=
         {| clientcmd.Server := endpoint; clientcmd.CertificateAuthority := ca;
            clientcmd.InsecureSkipTLSVerify := false |} |}.
Proof.
  cbn [range_overridesMap].
  destruct (String.eqb_spec endpoint "") as [->|_],
           (String.eqb_spec cert "") as [->|_],
           (String.eqb_spec key "") as [->|_],
           (String.eqb_spec ca "") as [->|_],
           (String.eqb_spec token "") as [->|_]; reflexivity.
Qed.

Section ConstructorFacts.

Context `{KubeDeps}.

(** X10.  The guarded copies of [NewKubeClient] amount to plain copies: the
    client configuration is loaded with the explicit path and the five
    overrides taken as they are from the Calico configuration, and with the
    TLS flag.  A failure of the loading or of the construction of the
    clientset comes back translated and without a clientset; otherwise the
    clientset comes back without an error. *)
Theorem NewKubeClient_overrides (calCfg : apiconfig.CalicoAPIConfig) (w : world) :
  let kc := apiconfig.SpecKubeConfig (apiconfig.Spec calCfg) in
  value (NewKubeClient calCfg) w
  = Some
      match clientcmd_ClientConfig
              {| clientcmd.ExplicitPath := apiconfig.Kubeconfig kc |}
              {| clientcmd.OverridesAuthInfo :=
                   {| clientcmd.ClientCertificate := apiconfig.K8sCertFile kc;
                      clientcmd.ClientKey := apiconfig.K8sKeyFile kc;
                      clientcmd.Token := apiconfig.K8sAPIToken kc |};
                 clientcmd.OverridesClusterInfo :=
                   {| clientcmd.Server := apiconfig.K8sAPIEndpoint kc;
                      clientcmd.CertificateAuthority := apiconfig.K8sCAFile kc;
                      clientcmd.InsecureSkipTLSVerify :=
                        apiconfig.K8sInsecureSkipTLSVerify kc |} |} with
      | inr err => (None, Some (K8sErrorToCalico err))
      | inl config =>
          match kubernetes_NewForConfig config with
          | inr err => (None, Some (K8sErrorToCalico err))
          | inl cs => (Some cs, None)
          end
      end.
Proof.
  intros kc. unfold value, NewKubeClient. fold kc.
  rewrite range_overridesMap_plain.
  assert (Hrules : (if negb (String.eqb (apiconfig.Kubeconfig kc) "")
                    then {| clientcmd.ExplicitPath := apiconfig.Kubeconfig kc |}
                    else clientcmd.no_rules)
                   = {| clientcmd.ExplicitPath := apiconfig.Kubeconfig kc |}).
  { destruct (String.eqb_spec (apiconfig.Kubeconfig kc) "") as [->|_]; reflexivity. }
  rewrite Hrules.
  assert (Hflag : (if apiconfig.K8sInsecureSkipTLSVerify kc
                   then clientcmd.set_InsecureSkipTLSVerify true
                          {| clientcmd.OverridesAuthInfo :=
                               {| clientcmd.ClientCertificate := apiconfig.K8sCertFile kc;
                                  clientcmd.ClientKey := apiconfig.K8sKeyFile kc;
                                  clientcmd.Token := apiconfig.K8sAPIToken kc |};
                             clientcmd.OverridesClusterInfo :=
                               {| clientcmd.Server := apiconfig.K8sAPIEndpoint kc;
                                  clientcmd.CertificateAuthority := apiconfig.K8sCAFile kc;
                                  clientcmd.InsecureSkipTLSVerify := false |} |}
                   else {| clientcmd.OverridesAuthInfo :=
                             {| clientcmd.ClientCertificate := apiconfig.K8sCertFile kc;
                                clientcmd.ClientKey := apiconfig.K8sKeyFile kc;
                                clientcmd.Token := apiconfig.K8sAPIToken kc |};
                           clientcmd.OverridesClusterInfo :=
                             {| clientcmd.Server := apiconfig.K8sAPIEndpoint kc;
                                clientcmd.CertificateAuthority := apiconfig.K8sCAFile kc;
                                clientcmd.InsecureSkipTLSVerify := false |} |})
                  = {| clientcmd.OverridesAuthInfo :=
                         {| clientcmd.ClientCertificate := apiconfig.K8sCertFile kc;
                            clientcmd.ClientKey := apiconfig.K8sKeyFile kc;
                            clientcmd.Token := apiconfig.K8sAPIToken kc |};
                       clientcmd.OverridesClusterInfo :=
                         {| clientcmd.Server := apiconfig.K8sAPIEndpoint kc;
                            clientcmd.CertificateAuthority := apiconfig.K8sCAFile kc;
                            clientcmd.InsecureSkipTLSVerify :=
                              apiconfig.K8sInsecureSkipTLSVerify kc |} |}).
  { destruct (apiconfig.K8sInsecureSkipTLSVerify kc); reflexivity. }
  rewrite Hflag. unfold bind, log, ret.
  destruct (clientcmd_ClientConfig _ _) as [config|err]; [|reflexivity].
  destruct (kubernetes_NewForConfig config); reflexivity.
Qed.

(** X11.  [NewServer] answers with a server or with an error, never both and
    never neither.  When the Calico client cannot be created it stops there:
    the error is returned as it is and the Kubernetes client is not built,
    although the journal already says that the Calico client was created.
    A server it returns carries the node name it was given and a query object
    built on a clientset that is not nil. *)
Theorem NewServer_spec (config : apiconfig.CalicoAPIConfig) (nodeName : string)
    (w : world) :
  match clientv3_New config with
  | inr err =>
      NewServer config nodeName w
      = Ret (None, Some err,
             World (spiffeIdRegExp w)
               (journal w ++ [Entry DebugLevel "Created Calico Client."]))
  | inl c =>
      match value (NewKubeClient config) w with
      | Some (Some cs, None) =>
          value (NewServer config nodeName) w
          = Some (Some {| NodeName := nodeName;
                          Query := NewCalicoQuery c (Some cs) |}, None)
      | Some (_, Some err) =>
          value (NewServer config nodeName) w = Some (None, Some err)
      | _ => False
      end
  end.
Proof.
  pose proof (NewKubeClient_overrides config w) as V. cbv zeta in V.
  unfold NewServer.
  destruct (clientv3_New config) as [c|err]; [|reflexivity].
  rewrite V. unfold value, bind. cbn [log].
  set (w1 := World _ _).
  assert (V1 : value (NewKubeClient config) w1 = value (NewKubeClient config) w).
  { rewrite V. apply NewKubeClient_overrides. }
  rewrite V in V1. unfold value in V1.
  destruct (NewKubeClient config w1) as [[r w2]|]; [|discriminate].
  injection V1 as ->.
  destruct (clientcmd_ClientConfig _ _) as [cfg|err]; [|reflexivity].
  destruct (kubernetes_NewForConfig cfg); reflexivity.
Qed.

End ConstructorFacts.

(** ** The command line program *)

Lemma free_of_app (c : ascii) (s t : string) :
  free_of c (s +:+ t) = free_of c s && free_of c t.
Proof.
  induction s as [|a s IH]; simpl; [reflexivity|].
  now rewrite IH, andb_assoc.
Qed.

Lemma starts_with_slash (rest tail : string) :
  rest = "" \/ (exists r, rest = String "/" r) ->
  rest +:+ String "/" tail = ""
  \/ exists r, rest +:+ String "/" tail = String "/" r.
Proof. intros [->|[r ->]]; right; simpl; eauto. Qed.

(** The principal that the client builds reads as a SPIFFE ID only if the
    namespace and the account are path segments, and then as themselves. *)
Lemma shape_of_client_principal (namespace account n s : string) :
  spiffe_shape ("spiffe://cluster.local/ns/" +:+ namespace +:+ "/sa/" +:+ account) n s ->
  segment namespace /\ segment account /\ n = account /\ s = namespace.
Proof.
  intros (d & E & [Hd Fd] & [Hs Fs] & [Hn Fn]).
  assert (E1 : "cluster.local" +:+ "/ns/" +:+ namespace +:+ "/sa/" +:+ account
               = d +:+ "/ns/" +:+ s +:+ "/sa/" +:+ n).
  { apply (String.app_inj "spiffe://"). exact E. }
  apply (span_unique "/") in E1 as [<- E1];
    [| reflexivity | assumption | right; eauto | right; eauto].
  apply (String.app_inj "/ns/") in E1.
  destruct (span_exists "/" namespace) as (t & rest & -> & Ft & Hrest).
  rewrite append_assoc in E1.
  apply (span_unique "/") in E1 as [-> E1];
    [| assumption | assumption | apply starts_with_slash; assumption | right; eauto].
  destruct Hrest as [->|[r ->]].
  - apply (String.app_inj "/sa/") in E1. subst n.
    rewrite append_nil_r. repeat split; assumption.
  - exfalso. simpl in E1. injection E1 as E1.
    destruct (span_exists "/" r) as (t' & rest' & -> & Ft' & Hrest').
    rewrite append_assoc in E1.
    apply (span_unique "/" _ "sa" _ (String "/" n)) in E1 as [-> E1];
      [| assumption | reflexivity | apply starts_with_slash; assumption
       | right; eauto].
    assert (Hbad : free_of "/" n = false); [|congruence].
    destruct Hrest' as [->|[r' ->]]; simpl in E1; injection E1 as <-.
    + reflexivity.
    + rewrite free_of_app. simpl. apply andb_false_r.
Qed.

Lemma client_principal_shape (namespace account : string) :
  segment namespace -> segment account ->
  spiffe_shape ("spiffe://cluster.local/ns/" +:+ namespace +:+ "/sa/" +:+ account)
    account namespace.
Proof.
  intros Hs Hn. exists "cluster.local".
  split; [reflexivity|]. split; [split; [discriminate | reflexivity]|]. auto.
Qed.

Section ProgramFacts.

Import main.
Context `{Host}.

(** One case of the analysis of [getConfig]: each direction is read off
    the equations of the case. *)
Ltac getConfig_case :=
  repeat split; intros;
  repeat match goal with
         | H : _ /\ _ |- _ => destruct H
         | H : exists _, _ |- _ => destruct H
         | H : _ \/ _ |- _ => destruct H
         | H : (_, _) = (_, _) |- _ => injection H as ? ?
         end;
  subst;
  try congruence;
  try (exfalso; congruence);
  try solve [ match goal with
              | H : forall s, _ <> Str s |- _ => destruct (H _ eq_refl)
              end ];
  eauto 15 using eq_refl.

(** How [getConfig] ends, case by case. *)
Lemma getConfig_endings_aux (arguments : gmap string iface) (t : list (event Conn)) :
  match getConfig arguments t with
  | (Returns cfg, t') =>
      let kc := apiconfig.SpecKubeConfig (apiconfig.Spec cfg) in
      t' = t
      /\ apiconfig.SpecDatastoreType (apiconfig.Spec cfg) = apiconfig.Kubernetes
      /\ apiconfig.AlphaFeatures (apiconfig.Spec cfg) = "serviceaccounts,httprules"
      /\ apiconfig.K8sInsecureSkipTLSVerify kc = false
      /\ apiconfig.K8sKeyFile kc = "" /\ apiconfig.K8sCertFile kc = ""
      /\ ((at_ arguments "--kube" = Str (apiconfig.Kubeconfig kc)
           /\ apiconfig.K8sAPIEndpoint kc = "" /\ apiconfig.K8sCAFile kc = ""
           /\ apiconfig.K8sAPIToken kc = "")
          \/ (at_ arguments "--kube" = Nil
              /\ apiconfig.Kubeconfig kc = ""
              /\ (exists path,
                    at_ arguments "--token" = Str path
                    /\ ReadFile path = inl (apiconfig.K8sAPIToken kc))
              /\ at_ arguments "--kubernetes" = Str (apiconfig.K8sAPIEndpoint kc)
              /\ at_ arguments "--ca" = Str (apiconfig.K8sCAFile kc)))
  | (Fatal _, t') =>
      t' = t /\ at_ arguments "--kube" = Nil
      /\ exists path err, at_ arguments "--token" = Str path /\ ReadFile path = inr err
  | (Panics _, t') =>
      t' = t
      /\ exists key, In key ["--kube"; "--token"; "--kubernetes"; "--ca"]
                     /\ forall s, at_ arguments key <> Str s
  end.
Proof.
  unfold getConfig, then_, assert_string, returns, fatalf.
  assert (Hbad : forall key,
            In key ["--kube"; "--token"; "--kubernetes"; "--ca"] ->
            (forall s, at_ arguments key <> Str s) ->
            t = t /\ exists key,
                In key ["--kube"; "--token"; "--kubernetes"; "--ca"]
                /\ forall s, at_ arguments key <> Str s) by eauto.
  destruct (at_ arguments "--kube") eqn:Ekube;
    try (apply (Hbad "--kube"); [simpl; tauto | rewrite Ekube; discriminate]).
  - destruct (at_ arguments "--token") as [|path| | |] eqn:Etoken;
      try (apply (Hbad "--token"); [simpl; tauto | rewrite Etoken; discriminate]).
    destruct (ReadFile path) as [token|err] eqn:Eread; [|eauto 10].
    destruct (at_ arguments "--kubernetes") as [|endpoint| | |] eqn:Eapi;
      try (apply (Hbad "--kubernetes"); [simpl; tauto | rewrite Eapi; discriminate]).
    destruct (at_ arguments "--ca") as [|ca| | |] eqn:Eca;
      try (apply (Hbad "--ca"); [simpl; tauto | rewrite Eca; discriminate]).
    cbn. repeat split. right. repeat split. eauto.
  - cbn. repeat split. left. auto.
Qed.

(** X12.  How [getConfig] ends, exactly.  It returns when --kube is a
    string, with that string as the kubeconfig path and every other client
    field empty, or when --kube is nil, --token names a file that can be
    read and --kubernetes and --ca are strings, with the contents of the file
    as the token, the endpoint and the CA file; in both cases the
    configuration is for the Kubernetes datastore with the two alpha
    features, and in no other case.  It ends the process, with the message
    about the token file, exactly when --kube is nil, --token is a string and
    that file cannot be read.  It panics exactly when --kube is neither nil
    nor a string, or --kube is nil and --token is not a string, or the token
    file was read and --kubernetes or --ca is not a string.  In every case it
    makes no call to the logger other than the one that ends the process. *)
Theorem getConfig_endings (arguments : gmap string iface) (t : list (event Conn)) :
  let config kc :=
    {| apiconfig.Spec :=
         {| apiconfig.SpecDatastoreType := apiconfig.Kubernetes;
            apiconfig.SpecKubeConfig := kc;
            apiconfig.AlphaFeatures := "serviceaccounts,httprules" |} |} in
  let not_string x := forall s, x <> Str s in
  (forall cfg t',
     getConfig arguments t = (Returns cfg, t')
     <-> t' = t
         /\ ((exists path,
                at_ arguments "--kube" = Str path
                /\ cfg = config {| apiconfig.Kubeconfig := path;
                                   apiconfig.K8sAPIEndpoint := "";
                                   apiconfig.K8sKeyFile := "";
                                   apiconfig.K8sCertFile := "";
                                   apiconfig.K8sCAFile := "";
                                   apiconfig.K8sAPIToken := "";
                                   apiconfig.K8sInsecureSkipTLSVerify := false |})
             \/ (at_ arguments "--kube" = Nil
                 /\ exists path token endpoint ca,
                      at_ arguments "--token" = Str path
                      /\ ReadFile path = inl token
                      /\ at_ arguments "--kubernetes" = Str endpoint
                      /\ at_ arguments "--ca" = Str ca
                      /\ cfg = config {| apiconfig.Kubeconfig := "";
                                         apiconfig.K8sAPIEndpoint := endpoint;
                                         apiconfig.K8sKeyFile := "";
                                         apiconfig.K8sCertFile := "";
                                         apiconfig.K8sCAFile := ca;
                                         apiconfig.K8sAPIToken := token;
                                         apiconfig.K8sInsecureSkipTLSVerify := false |})))
  /\ (forall msg t',
        getConfig arguments t = (Fatal msg, t')
        <-> t' = t /\ msg = "Could not open token file %v. %v"
            /\ at_ arguments "--kube" = Nil
            /\ exists path err,
                 at_ arguments "--token" = Str path /\ ReadFile path = inr err)
  /\ (forall why t',
        getConfig arguments t = (Panics why, t')
        <-> t' = t /\ why = "interface conversion: interface {} is not string"
            /\ ((at_ arguments "--kube" <> Nil /\ not_string (at_ arguments "--kube"))
                \/ (at_ arguments "--kube" = Nil
                    /\ (not_string (at_ arguments "--token")
                        \/ exists path token,
                             at_ arguments "--token" = Str path
                             /\ ReadFile path = inl token
                             /\ (not_string (at_ arguments "--kubernetes")
                                 \/ not_string (at_ arguments "--ca")))))).
Proof.
  intros config not_string. subst config not_string.
  unfold getConfig, then_, assert_string, returns, fatalf.
  destruct (at_ arguments "--kube") as [|kube| | |] eqn:Ekube.
  2-5: solve [getConfig_case].
  destruct (at_ arguments "--token") as [|path| | |] eqn:Etoken.
  1,3-5: solve [getConfig_case].
  destruct (ReadFile path) as [token|err] eqn:Eread.
  2: solve [getConfig_case].
  destruct (at_ arguments "--kubernetes") as [|endpoint| | |] eqn:Eapi.
  1,3-5: solve [getConfig_case].
  destruct (at_ arguments "--ca") as [|ca| | |] eqn:Eca; solve [getConfig_case].
Qed.

(** X13.  How [runClient] ends and what it does on the way.  It returns only
    after one request was sent and answered, the answer logged and the
    connection closed.  It ends the process either before anything was done
    (the dial failed) or right after the one request failed, and then the
    connection is left open.  It panics either before the dial or after it
    with the connection closed and nothing sent. *)
Theorem runClient_trace (arguments : gmap string iface) (t : list (event Conn)) :
  match runClient arguments t with
  | (Returns _, t') =>
      exists conn req resp,
        client_Check conn req = inl resp
        /\ t' = t ++ [Sent conn req;
                      Logged (Entry InfoLevel
                                ("Check response:" +:+ String "010" " %v"));
                      Closed conn]
  | (Fatal _, t') =>
      t' = t
      \/ exists conn req err,
           client_Check conn req = inr err /\ t' = t ++ [Sent conn req]
  | (Panics _, t') =>
      t' = t \/ exists conn, t' = t ++ [Closed conn]
  end.
Proof.
  unfold runClient, then_, defer, assert_string, assert_bool, returns, fatalf,
    logf, emit.
  destruct (at_ arguments "--dial") as [|target| | |]; auto.
  destruct (grpc_Dial target) as [conn|err]; auto.
  destruct (at_ arguments "<namespace>") as [|namespace| | |]; eauto.
  destruct (at_ arguments "<account>") as [|account| | |]; eauto.
  destruct (at_ arguments "--method") as [| |[|]| |]; eauto.
  - destruct (at_ arguments "<method>") as [|method| | |]; eauto.
    destruct (client_Check conn _) as [resp|err] eqn:E; [|eauto 10].
    exists conn. eexists _, resp. split; [exact E|].
    now rewrite <- !app_assoc.
  - destruct (client_Check conn _) as [resp|err] eqn:E; [|eauto 10].
    exists conn. eexists _, resp. split; [exact E|].
    now rewrite <- !app_assoc.
Qed.

(** X14.  The identity that the client announces and the one the server
    reads agree.  With well-typed arguments and a successful dial, the first
    thing [runClient] does on the connection is to send a request whose
    principal is spiffe://cluster.local/ns/<namespace>/sa/<account>, without
    labels, and with the method if one was asked for.  [parseSpiffeId] reads
    this principal back as that account and that namespace when both are
    non-empty and free of slashes, and rejects it otherwise. *)
Theorem runClient_identity_round_trip (arguments : gmap string iface)
    (t : list (event Conn)) (target namespace account method : string)
    (conn : Conn) (withMethod : bool) :
  at_ arguments "--dial" = Str target ->
  grpc_Dial target = inl conn ->
  at_ arguments "<namespace>" = Str namespace ->
  at_ arguments "<account>" = Str account ->
  at_ arguments "--method" = Bool withMethod ->
  (withMethod = true -> at_ arguments "<method>" = Str method) ->
  let principal := "spiffe://cluster.local/ns/" +:+ namespace +:+ "/sa/" +:+ account in
  let req :=
    {| authz.Attributes :=
         Some {| authz.Source :=
                   Some {| authz.Principal := principal; authz.Labels := ∅ |};
                 authz.Request :=
                   if withMethod
                   then Some {| authz.Http := Some {| authz.Method := method |} |}
                   else None |} |} in
  (exists e rest, runClient arguments t = (e, t ++ Sent conn req :: rest))
  /\ forall w, wf_world w ->
       (segment namespace /\ segment account ->
        value (parseSpiffeId principal) w = Some (account, namespace, None))
       /\ (~ (segment namespace /\ segment account) ->
           value (parseSpiffeId principal) w
           = Some ("", "", Some (MalformedIdentity principal))).
Proof.
  intros Hdial Hconn Hns Hacc Hm Hmethod principal req. split.
  - unfold runClient, then_, defer, assert_string, assert_bool, returns, fatalf,
      logf, emit.
    rewrite Hdial, Hconn, Hns, Hacc, Hm. subst req principal.
    destruct withMethod.
    + rewrite (Hmethod eq_refl).
      destruct (client_Check conn _); eexists _, _;
        rewrite <- ?app_assoc; reflexivity.
    + destruct (client_Check conn _); eexists _, _;
        rewrite <- ?app_assoc; reflexivity.
  - intros w Hw. rewrite (parseSpiffeId_value _ w Hw). split.
    + intros [Hs Hn]. apply parse_value_of_shape.
      now apply client_principal_shape.
    + intros Hno.
      destruct (yields_parseSpiffeId principal) as ([[n s] [e|]] & _ & -> & Hr).
      * destruct Hr as (-> & -> & -> & _). reflexivity.
      * apply shape_of_client_principal in Hr. tauto.
Qed.

End ProgramFacts.

Section StartupFacts.

Import main.
Context `{Host} `{KubeDeps}.

(** X15.  From the command line to the Kubernetes client.  When [getConfig]
    returns, [NewKubeClient] on its result loads the client configuration
    either from the kubeconfig path alone, with no override at all, or, when
    --kube is nil, from no path and exactly three overrides: the server, the
    CA file, and the token read from the token file. *)
Theorem getConfig_then_NewKubeClient (arguments : gmap string iface)
    (t t' : list (event Conn)) (cfg : apiconfig.CalicoAPIConfig) (w : world) :
  getConfig arguments t = (Returns cfg, t') ->
  exists rules overrides,
    value (NewKubeClient cfg) w
    = Some match clientcmd_ClientConfig rules overrides with
           | inr err => (None, Some (K8sErrorToCalico err))
           | inl config =>
               match kubernetes_NewForConfig config with
               | inr err => (None, Some (K8sErrorToCalico err))
               | inl cs => (Some cs, None)
               end
           end
    /\ match at_ arguments "--kube" with
       | Str path =>
           rules = {| clientcmd.ExplicitPath := path |}
           /\ overrides = clientcmd.no_overrides
       | _ =>
           rules = clientcmd.no_rules
           /\ exists tokenPath token endpoint ca,
                at_ arguments "--token" = Str tokenPath
                /\ ReadFile tokenPath = inl token
                /\ at_ arguments "--kubernetes" = Str endpoint
                /\ at_ arguments "--ca" = Str ca
                /\ overrides
                   = clientcmd.store clientcmd.AuthInfo_Token token
                       (clientcmd.store clientcmd.ClusterInfo_CertificateAuthority ca
                          (clientcmd.store clientcmd.ClusterInfo_Server endpoint
                             clientcmd.no_overrides))
       end.
Proof.
  intros Hcfg. pose proof (getConfig_endings_aux arguments t) as Hend.
  rewrite Hcfg in Hend. cbv zeta in Hend.
  destruct Hend as (_ & _ & _ & Hins & Hkey & Hcert & Hmode).
  eexists _, _. split; [apply NewKubeClient_overrides|]. cbv zeta.
  destruct cfg as [[ds [path endpoint key cert ca token ins] alpha]].
  cbn in *. subst ins key cert.
  destruct Hmode as [(-> & -> & -> & ->)|(-> & -> & (tp & Etok & Eread) & Eapi & Eca)].
  - split; reflexivity.
  - split; [reflexivity|]. exists tp, token, endpoint, ca. repeat split; assumption.
Qed.

End StartupFacts.

(** ** The further facts on concrete inputs *)

Lemma sample_shape (domain namespace name : string) :
  segment domain -> segment namespace -> segment name ->
  spiffe_shape ("spiffe://" +:+ domain +:+ "/ns/" +:+ namespace +:+ "/sa/" +:+ name)
    name namespace.
Proof. intros Hd Hs Hn. exists domain. auto. Qed.

Lemma match_true_iff_witness :
  wf_world init_world
  /\ value (match_ sample_rule
              (sample_request "spiffe://cluster.local/ns/foo/sa/bar"
                 {["role" := "web"]} "POST")) init_world
     = Some true.
Proof.
  split; [left; reflexivity|].
  apply (proj2 (match_true_iff sample_rule
                  (sample_request "spiffe://cluster.local/ns/foo/sa/bar"
                     {["role" := "web"]} "POST") init_world (or_introl eq_refl))).
  split.
  - exists "bar", "foo". split.
    + apply (sample_shape "cluster.local" "foo" "bar"); split;
        (discriminate || reflexivity).
    + split; [right; left; reflexivity|].
      exists (SelEq "role" "web"). split; reflexivity.
  - right. right. right. left. reflexivity.
Defined.

Lemma match_ignores_namespace_witness :
  wf_world init_world
  /\ value (match_ sample_rule
              (sample_request "spiffe://cluster.local/ns/foo/sa/bar"
                 {["role" := "web"]} "GET")) init_world
     = value (match_ sample_rule
                (sample_request "spiffe://other.example/ns/kube-system/sa/bar"
                   {["role" := "web"]} "GET")) init_world.
Proof.
  split; [left; reflexivity|].
  apply (match_ignores_namespace sample_rule _ _ init_world "bar" "foo" "kube-system"
           (or_introl eq_refl)).
  - apply (sample_shape "cluster.local" "foo" "bar"); split;
      (discriminate || reflexivity).
  - apply (sample_shape "other.example" "kube-system" "bar"); split;
      (discriminate || reflexivity).
  - reflexivity.
  - reflexivity.
Defined.

Lemma match_invalid_selector_witness :
  wf_world init_world
  /\ sample_Parse "role = web" = inr "unexpected token in role = web"
  /\ value (match_ {| api.Source :=
                        {| api.ServiceAccounts :=
                             Some {| api.Names := []; api.Selector := "role = web" |} |};
                      api.HTTP := None |}
              (sample_request "spiffe://cluster.local/ns/foo/sa/bar"
                 {["role" := "web"]} "GET")) init_world
     = Some false.
Proof.
  split; [left; reflexivity|]. split; [reflexivity|].
  exact (match_invalid_selector
           {| api.Source :=
                {| api.ServiceAccounts :=
                     Some {| api.Names := []; api.Selector := "role = web" |} |};
              api.HTTP := None |}
           {| api.Names := []; api.Selector := "role = web" |}
           "unexpected token in role = web"
           (sample_request "spiffe://cluster.local/ns/foo/sa/bar"
              {["role" := "web"]} "GET")
           init_world (or_introl eq_refl) eq_refl eq_refl).
Defined.

Lemma match_unparsed_stops_witness :
  wf_world init_world
  /\ parses "https://cluster.local/ns/foo/sa/bar" = false
  /\ after (match_ sample_rule
              (sample_request "https://cluster.local/ns/foo/sa/bar"
                 {["role" := "web"]} "GET")) init_world
     = Some (World (Some spiffe_prog)
               [Entry DebugLevel "Checking rule %v on request %v";
                Entry DebugLevel "Matching service account.";
                Entry WarnLevel
                  "Unable to parse authenticated principle as SPIFFE ID."]).
Proof.
  split; [left; reflexivity|]. split; [vm_compute; reflexivity|].
  unfold after.
  rewrite (match_unparsed_stops sample_rule
             (sample_request "https://cluster.local/ns/foo/sa/bar"
                {["role" := "web"]} "GET") init_world (or_introl eq_refl)).
  - reflexivity.
  - vm_compute. reflexivity.
Defined.

Lemma selector_not_consulted_witness :
  wf_world init_world
  /\ @match_ sample_selectors sample_rule
       (sample_request "spiffe://cluster.local/ns/foo/sa/qux" {["role" := "web"]} "GET")
       init_world
     = @match_ {| Selector := unit;
                  selector_Parse := fun _ => inr "unsupported";
                  selector_Evaluate := fun _ _ => false |}
         sample_rule
         (sample_request "spiffe://cluster.local/ns/foo/sa/qux" {["role" := "web"]} "GET")
         init_world.
Proof.
  split; [left; reflexivity|].
  apply (selector_not_consulted _ _ sample_rule
           {| api.Names := ["bar"]; api.Selector := "role == 'web'" |}
           _ init_world (or_introl eq_refl) eq_refl).
  intros name namespace Hshape.
  assert (Hqux : spiffe_shape "spiffe://cluster.local/ns/foo/sa/qux" "qux" "foo").
  { apply (sample_shape "cluster.local" "foo" "qux"); split;
      (discriminate || reflexivity). }
  destruct (spiffe_shape_unique _ _ _ _ _ Hshape Hqux) as [-> _].
  split; [discriminate|]. intros [?|[]]. discriminate.
Defined.

Lemma parseSpiffeId_compiles_once_witness :
  let other :=
    [regexp.BeginText; regexp.NotCharPlus "/" true; regexp.Lit "/";
     regexp.NotCharPlus "/" true; regexp.EndText] in
  parseSpiffeId "foo/bar" (World (Some other) [])
  = Ret ("bar", "foo", None, World (Some other) [])
  /\ after (parseSpiffeId "not-a-spiffe-id") init_world
     = Some (World (Some spiffe_prog) [])
  /\ after (parseSpiffeId "spiffe://cluster.local/ns/foo/sa/bar")
       (World (Some spiffe_prog) [])
     = Some (World (Some spiffe_prog) []).
Proof.
  intros other. split; [|split].
  - destruct (parseSpiffeId "foo/bar" (World (Some other) [])) as [[r w']|why] eqn:E.
    + rewrite (proj1 (parseSpiffeId_compiles_once "foo/bar" (World (Some other) []))
                 r w' E).
      f_equal. f_equal. revert E. vm_compute. intros [= <- _]. reflexivity.
    + revert E. vm_compute. discriminate.
  - exact (parseSpiffeId_compiles_once "not-a-spiffe-id" init_world).
  - exact (proj2 (parseSpiffeId_compiles_once "spiffe://cluster.local/ns/foo/sa/bar"
                    (World (Some spiffe_prog) [])) eq_refl).
Defined.

Lemma matchHTTPMethods_same_entries_witness :
  (forall m, In m ["GET"; "POST"] <-> In m ["POST"; "GET"; "GET"])
  /\ value (matchHTTPMethods ["GET"; "POST"] "POST") init_world
     = value (matchHTTPMethods ["POST"; "GET"; "GET"] "POST") init_world.
Proof.
  assert (Hsame : forall m, In m ["GET"; "POST"] <-> In m ["POST"; "GET"; "GET"])
    by (intros m; simpl; tauto).
  split; [exact Hsame|].
  exact (matchHTTPMethods_same_entries _ _ "POST" init_world Hsame).
Defined.

Lemma matchServiceAccountName_widening_witness :
  ["a"] <> []
  /\ (forall n, In n ["a"] -> In n ["a"; "b"])
  /\ value (matchServiceAccountName ["a"; "b"] "a") init_world = Some true
  /\ value (matchServiceAccountName ["a"] "b") init_world = Some false.
Proof.
  assert (Hne : ["a"] <> []) by discriminate.
  assert (Hincl : forall n, In n ["a"] -> In n ["a"; "b"]) by (simpl; tauto).
  split; [exact Hne|]. split; [exact Hincl|].
  destruct (matchServiceAccountName_widening ["a"] ["a"; "b"] "a" "b" init_world
              Hne Hincl) as (Hwide & _ & _).
  destruct (matchServiceAccountName_widening ["a"] ["a"; "b"] "b" "a" init_world
              Hne Hincl) as (_ & _ & Hone).
  split; [apply Hwide; reflexivity | apply Hone; discriminate].
Defined.

Lemma Check_no_container_witness :
  getContainerFromContext None = ("", Some "no container in context")
  /\ Check {| NodeName := "node1"; Query := sample_up |} None
       (sample_request "spiffe://cluster.local/ns/foo/sa/bar" {["role" := "web"]} "GET")
       init_world
     = Check {| NodeName := "node2"; Query := sample_down |} None None init_world.
Proof.
  split; [reflexivity|].
  exact (proj1 (Check_no_container _ _ None _ _ init_world ""
                  "no container in context" eq_refl)).
Defined.

Lemma runClient_identity_round_trip_witness :
  main.at_ sample_arguments "<namespace>" = main.Str "foo"
  /\ main.at_ sample_arguments "<account>" = main.Str "bar"
  /\ value (parseSpiffeId "spiffe://cluster.local/ns/foo/sa/bar") init_world
     = Some ("bar", "foo", None).
Proof.
  split; [reflexivity|]. split; [reflexivity|].
  destruct (runClient_identity_round_trip (H := sample_host) sample_arguments []
              "/var/run/dikastes/dikastes.sock" "foo" "bar" "GET"
              "/var/run/dikastes/dikastes.sock" true
              eq_refl eq_refl eq_refl eq_refl eq_refl (fun _ => eq_refl))
    as [_ Hparse].
  apply (Hparse init_world (or_introl eq_refl)).
  split; split; (discriminate || reflexivity).
Defined.

Lemma getConfig_then_NewKubeClient_witness :
  exists cfg,
    main.getConfig sample_arguments [] = (main.Returns cfg, [])
    /\ value (NewKubeClient cfg) init_world = Some (Some "https://kubernetes:443", None).
Proof.
  eexists. split; [reflexivity|].
  destruct (getConfig_then_NewKubeClient (H := sample_host) sample_arguments [] [] _
              init_world eq_refl)
    as (rules & overrides & V & Hmode).
  rewrite V. cbn in Hmode.
  destruct Hmode as (-> & tp & token & endpoint & ca & [= <-] & [= <-] & [= <-]
                     & [= <-] & ->).
  reflexivity.
Defined.
